(** * Jaoken: tile and wallpaper quantity estimation, and the preview geometry

    A shallow embedding of [calculator-logic.js] (TileLogic),
    [wallpaper-logic.js] (WallpaperLogic) and of the geometry and drag code
    of [app.js] (drawWallPanel, initCanvasDragDrop, runCalculation), of its
    opening list, its displays and its wallpaper handlers.

    Numbers.  A JavaScript number is modelled by [num]: an exact rational,
    or one of the three special values [+Infinity], [-Infinity], [NaN].
    Arithmetic on finite values is exact: the rounding of IEEE doubles is
    not modelled, and neither is the sign of zero (a zero divisor counts
    as [+0]).  Division by zero, [Infinity - Infinity], [0 * Infinity] and
    every comparison with [NaN] behave as in JavaScript. *)

From Stdlib Require Import QArith Qround Qminmax ZArith List Bool Lia Lra Psatz.
From Stdlib Require String.
Import ListNotations.

Open Scope Q_scope.

(* ================================================================== *)
(** ** JavaScript numbers *)
(* ================================================================== *)

Module JsNum.

Inductive num : Type :=
| Fin (q : Q)
| PInf
| NInf
| NaN.

Definition Qltb (x y : Q) : bool := negb (Qle_bool y x).

(** Sign of a number that is not [NaN]: [Lt], [Eq] or [Gt]. *)
Definition sgn (x : num) : comparison :=
  match x with
  | Fin q => q ?= 0
  | PInf => Gt
  | NInf => Lt
  | NaN => Eq
  end.

Definition neg (x : num) : num :=
  match x with
  | Fin q => Fin (- q)
  | PInf => NInf
  | NInf => PInf
  | NaN => NaN
  end.

Definition add (x y : num) : num :=
  match x, y with
  | NaN, _ | _, NaN => NaN
  | Fin a, Fin b => Fin (a + b)
  | PInf, NInf | NInf, PInf => NaN
  | PInf, _ | _, PInf => PInf
  | NInf, _ | _, NInf => NInf
  end.

Definition sub (x y : num) : num := add x (neg y).

Definition mul (x y : num) : num :=
  match x, y with
  | NaN, _ | _, NaN => NaN
  | Fin a, Fin b => Fin (a * b)
  | _, _ =>
      match sgn x, sgn y with
      | Eq, _ | _, Eq => NaN
      | Gt, Gt | Lt, Lt => PInf
      | _, _ => NInf
      end
  end.

Definition div (x y : num) : num :=
  match x, y with
  | NaN, _ | _, NaN => NaN
  | Fin a, Fin b =>
      if Qeq_bool b 0 then
        match a ?= 0 with Eq => NaN | Gt => PInf | Lt => NInf end
      else Fin (a / b)
  | Fin _, _ => Fin 0
  | _, Fin b =>
      match sgn x, Qltb b 0 with
      | Gt, false | Lt, true => PInf
      | _, _ => NInf
      end
  | _, _ => NaN
  end.

(** Rounding toward zero, the quotient that [%] uses. *)
Definition Qtrunc (q : Q) : Z :=
  if Qle_bool 0 q then Qfloor q else Qceiling q.

(** The remainder operator [x % y]: the result has the sign of [x]. *)
Definition rem (x y : num) : num :=
  match x, y with
  | Fin a, Fin b =>
      if Qeq_bool b 0 then NaN else Fin (a - b * inject_Z (Qtrunc (a / b)))
  | Fin a, (PInf | NInf) => Fin a
  | _, _ => NaN
  end.

(** [Math.floor] and [Math.ceil]. *)
Definition floor (x : num) : num :=
  match x with Fin q => Fin (inject_Z (Qfloor q)) | _ => x end.

Definition ceil (x : num) : num :=
  match x with Fin q => Fin (inject_Z (Qceiling q)) | _ => x end.

(** The relational operators; each is [false] as soon as one side is [NaN]. *)
Definition lt (x y : num) : bool :=
  match x, y with
  | NaN, _ | _, NaN => false
  | Fin a, Fin b => Qltb a b
  | _, NInf => false
  | NInf, _ => true
  | PInf, _ => false
  | _, PInf => true
  end.

Definition gt (x y : num) : bool := lt y x.

Definition le (x y : num) : bool :=
  match x, y with
  | NaN, _ | _, NaN => false
  | Fin a, Fin b => Qle_bool a b
  | NInf, _ => true
  | _, PInf => true
  | _, _ => false
  end.

Definition ge (x y : num) : bool := le y x.

(** Strict equality [x === y] of two numbers. *)
Definition seq (x y : num) : bool :=
  match x, y with
  | Fin a, Fin b => Qeq_bool a b
  | PInf, PInf | NInf, NInf => true
  | _, _ => false
  end.

(** [Math.max] and [Math.min] of two arguments: [NaN] is contagious. *)
Definition max (x y : num) : num :=
  match x, y with
  | NaN, _ | _, NaN => NaN
  | _, _ => if lt x y then y else x
  end.

Definition min (x y : num) : num :=
  match x, y with
  | NaN, _ | _, NaN => NaN
  | _, _ => if lt y x then y else x
  end.

(** Truthiness of a number: [0] and [NaN] are falsy. *)
Definition truthy (x : num) : bool :=
  match x with
  | Fin q => negb (Qeq_bool q 0)
  | NaN => false
  | _ => true
  end.

(** [x || d] on numbers. *)
Definition orElse (x d : num) : num := if truthy x then x else d.

(** [parseFloat] applied to a value that already is a number gives the
    number back ([NaN] included). *)
Definition parseFloat (x : num) : num := x.

(** The idiom [parseFloat(x) || 0]. *)
Definition num0 (x : num) : num := orElse (parseFloat x) (Fin 0).

(** Equality of numbers up to the representation of the rational. *)
Definition eqv (x y : num) : Prop :=
  match x, y with
  | Fin a, Fin b => a == b
  | PInf, PInf | NInf, NInf | NaN, NaN => True
  | _, _ => False
  end.

Definition eqvb (x y : num) : bool :=
  match x, y with
  | Fin a, Fin b => Qeq_bool a b
  | PInf, PInf | NInf, NInf | NaN, NaN => true
  | _, _ => false
  end.

Definition finite (x : num) : Prop :=
  match x with Fin _ => True | _ => False end.

End JsNum.

Import JsNum.

Declare Scope js_scope.
Delimit Scope js_scope with js.
Bind Scope js_scope with num.
Infix "+" := add : js_scope.
Infix "-" := sub : js_scope.
Infix "*" := mul : js_scope.
Infix "/" := div : js_scope.
Infix "mod" := rem (at level 40, no associativity) : js_scope.
Infix ">?" := gt (at level 70, no associativity) : js_scope.
Infix "<?" := lt (at level 70, no associativity) : js_scope.
Infix "<=?" := le (at level 70, no associativity) : js_scope.
Infix "===" := seq (at level 70, no associativity) : js_scope.
Infix "~=" := eqv (at level 70, no associativity) : js_scope.

(* ================================================================== *)
(** ** calculator-logic.js *)
(* ================================================================== *)

Module TileLogic.

(** A wall as [calculateAll] reads it: [{w, h}] in metres. *)
Record Wall : Type := mkWall { w : num; h : num }.

(** An opening as the estimator receives it: [{width, height}]. *)
Record OpeningDims : Type := mkDims { width : num; height : num }.

(** [params] of [calculateAll].  [wastePercent] is [None] when the property
    is [undefined] or [null]. *)
Record Params : Type := mkParams {
  walls : list Wall;
  openings : list OpeningDims;
  tileLengthCm : num;
  tileWidthCm : num;
  groutMm : num;
  wastePercent : option num;
  sqmPerBox : num
}.

Record Result : Type := mkResult {
  grossArea : num;
  totalDeduction : num;
  netArea : num;
  baseCount : num;
  finalCount : num;
  purchaseArea : num;
  boxCount : num;
  wasteTiles : num
}.

Local Open Scope js_scope.

(** [calcTotalDeduction]: the [reduce] over the openings. *)
Definition calcTotalDeduction (ops : list OpeningDims) : num :=
  fold_left (fun sum op => sum + num0 (width op) * num0 (height op))
            ops (Fin 0).

(** The tile count along one axis (lines 124-127 and 130-133):
    [final = (decimal > 0.5) ? ceil(count) : floor(count) + 0.5], then
    [if (decimal === 0) final = count]. *)
Definition axisCount (count : num) : num :=
  let decimal := count mod Fin 1 in
  let final := if decimal >? Fin 0.5 then ceil count
               else floor count + Fin 0.5 in
  if decimal === Fin 0 then count else final.

(** What one wall adds to [totalBaseCount]: [finalX * finalY]. *)
Definition wallTiles (tLenM tWidM wW wH : num) : num :=
  axisCount (wW / tLenM) * axisCount (wH / tWidM).

(** The accumulators of the [forEach]: [(totalBaseCount, totalGrossArea)]. *)
Definition wallStep (tLenM tWidM : num) (acc : num * num) (wall : Wall)
  : num * num :=
  let '(totalBaseCount, totalGrossArea) := acc in
  let wW := num0 (w wall) in
  let wH := num0 (h wall) in
  if (wW >? Fin 0) && (wH >? Fin 0) then
    (totalBaseCount + wallTiles tLenM tWidM wW wH, totalGrossArea + wW * wH)
  else acc.

Definition wallsLoop (tLenM tWidM : num) (ws : list Wall) : num * num :=
  fold_left (wallStep tLenM tWidM) ws (Fin 0, Fin 0).

Definition tLenM_of (p : Params) : num := num0 (tileLengthCm p) / Fin 100.
Definition tWidM_of (p : Params) : num := num0 (tileWidthCm p) / Fin 100.

(** [waste]: the explicit [!= null] test of line 109. *)
Definition waste_of (p : Params) : num :=
  match wastePercent p with
  | Some x => num0 x
  | None => Fin 0
  end.

(** [totalBaseCount] after the opening deduction (lines 145-148). *)
Definition deductedBase (tLenM tWidM totalBaseCount totalGrossArea
                         totalDeduction : num) : num :=
  if (totalGrossArea >? Fin 0) && (totalDeduction >? Fin 0) then
    let tilesToSubtract := totalDeduction / (tLenM * tWidM) in
    max (Fin 0) (totalBaseCount - tilesToSubtract)
  else totalBaseCount.

(** [totalBaseCount] as it stands at line 151. *)
Definition totalBaseCount_of (p : Params) : num :=
  let tLenM := tLenM_of p in
  let tWidM := tWidM_of p in
  let '(tb, tg) := wallsLoop tLenM tWidM (walls p) in
  deductedBase tLenM tWidM tb tg (calcTotalDeduction (openings p)).

Definition calculateAll (p : Params) : Result :=
  let tLenM := tLenM_of p in
  let tWidM := tWidM_of p in
  let waste := waste_of p in
  let sqmBox := num0 (sqmPerBox p) in
  let '(totalBaseCount0, totalGrossArea) :=
    wallsLoop tLenM tWidM (walls p) in
  let totalDeduction := calcTotalDeduction (openings p) in
  let netArea := max (Fin 0) (totalGrossArea - totalDeduction) in
  let totalBaseCount :=
    deductedBase tLenM tWidM totalBaseCount0 totalGrossArea totalDeduction in
  let finalCount := ceil (totalBaseCount * (Fin 1 + waste / Fin 100)) in
  let purchaseArea := finalCount * (tLenM * tWidM) in
  {| grossArea := totalGrossArea;
     totalDeduction := totalDeduction;
     netArea := netArea;
     baseCount := ceil totalBaseCount;
     finalCount := finalCount;
     purchaseArea := purchaseArea;
     boxCount := if sqmBox >? Fin 0 then ceil (purchaseArea / sqmBox)
                 else Fin 0;
     wasteTiles := finalCount - ceil totalBaseCount |}.

End TileLogic.


(* ================================================================== *)
(** ** wallpaper-logic.js *)
(* ================================================================== *)

Module WallpaperLogic.

Record Params : Type := mkParams {
  wallWidthM : num;
  wallHeightM : num;
  rollWidthM : num;
  rollLengthM : num;
  patternRepeatCm : num;
  rollPrice : num
}.

Record Result : Type := mkResult {
  wallArea : num;
  totalStrips : num;
  stripsPerRoll : num;
  totalRolls : num;
  effectiveStripHeight : num;
  totalPurchasedArea : num;
  wastePercent : num;
  totalPrice : num
}.

Local Open Scope js_scope.

Definition calcWallArea (width height : num) : num :=
  num0 width * num0 height.

Definition calcEffectiveStripHeight (wallHeight patternRepeat : num) : num :=
  let h := num0 wallHeight in
  let r := num0 patternRepeat in
  if h <=? Fin 0 then Fin 0
  else
    let safetyMargin := if r >? Fin 0 then Fin 0.80 else Fin 0 in
    h + safetyMargin.

Definition calcStripsPerRoll (rollLength effectiveHeight : num) : num :=
  let len := num0 rollLength in
  let effH := num0 effectiveHeight in
  if effH <=? Fin 0 then Fin 0
  else floor (len / effH).

Definition calcWallpaperAll (params : Params) : Result :=
  let wallWidth := num0 (wallWidthM params) in
  let wallHeight := num0 (wallHeightM params) in
  let rollWidth := num0 (rollWidthM params) in
  let rollLength := num0 (rollLengthM params) in
  let patternRepeat := num0 (patternRepeatCm params) in
  let wallArea := calcWallArea wallWidth wallHeight in
  let totalStrips :=
    if rollWidth >? Fin 0 then ceil (wallWidth / rollWidth) else Fin 0 in
  let effectiveStripHeight :=
    calcEffectiveStripHeight wallHeight patternRepeat in
  let stripsPerRoll := calcStripsPerRoll rollLength effectiveStripHeight in
  let totalRolls :=
    if stripsPerRoll >? Fin 0 then ceil (totalStrips / stripsPerRoll)
    else Fin 0 in
  let totalPurchasedArea := totalRolls * (rollWidth * rollLength) in
  let wastePercent :=
    if totalPurchasedArea >? Fin 0
    then ((totalPurchasedArea - wallArea) / totalPurchasedArea) * Fin 100
    else Fin 0 in
  let totalPrice := totalRolls * orElse (rollPrice params) (Fin 0) in
  {| wallArea := wallArea;
     totalStrips := totalStrips;
     stripsPerRoll := stripsPerRoll;
     totalRolls := totalRolls;
     effectiveStripHeight := effectiveStripHeight;
     totalPurchasedArea := totalPurchasedArea;
     wastePercent := wastePercent;
     totalPrice := totalPrice |}.

End WallpaperLogic.

(** The reference chain of the wallpaper estimator as the specification
    words it (section 4.3), over the defensively parsed inputs.  It is the
    second side of the refinement statements below, not a model of the
    code. *)
Module WallpaperSpec.

Import WallpaperLogic.
Local Open Scope js_scope.


(** The same, with the guard the code has: no strip for a wall without
    height. *)
Definition guardedEffectiveStripHeight (wallHeight patternRepeat : num)
  : num :=
  if wallHeight <=? Fin 0 then Fin 0
  else if patternRepeat >? Fin 0 then wallHeight + Fin 0.80
  else wallHeight.

Definition chain (effHeight : num -> num -> num) (params : Params) : Result :=
  let wallWidth := num0 (wallWidthM params) in
  let wallHeight := num0 (wallHeightM params) in
  let rollWidth := num0 (rollWidthM params) in
  let rollLength := num0 (rollLengthM params) in
  let patternRepeat := num0 (patternRepeatCm params) in
  let pricePerRoll := num0 (rollPrice params) in
  let wallArea := wallWidth * wallHeight in
  let totalStrips :=
    if rollWidth >? Fin 0 then ceil (wallWidth / rollWidth) else Fin 0 in
  let effectiveStripHeightM := effHeight wallHeight patternRepeat in
  let stripsPerRoll :=
    if effectiveStripHeightM >? Fin 0
    then floor (rollLength / effectiveStripHeightM) else Fin 0 in
  let totalRolls :=
    if stripsPerRoll >? Fin 0 then ceil (totalStrips / stripsPerRoll)
    else Fin 0 in
  let totalPurchasedArea := totalRolls * rollWidth * rollLength in
  let wastePercent :=
    if totalPurchasedArea >? Fin 0
    then (totalPurchasedArea - wallArea) / totalPurchasedArea * Fin 100
    else Fin 0 in
  let totalPrice := totalRolls * pricePerRoll in
  {| wallArea := wallArea;
     totalStrips := totalStrips;
     stripsPerRoll := stripsPerRoll;
     totalRolls := totalRolls;
     effectiveStripHeight := effectiveStripHeightM;
     totalPurchasedArea := totalPurchasedArea;
     wastePercent := wastePercent;
     totalPrice := totalPrice |}.

Definition guardedChain : Params -> Result :=
  chain guardedEffectiveStripHeight.

End WallpaperSpec.

(* ================================================================== *)
(** ** app.js: openings, preview geometry, drag and the calculation run *)
(* ================================================================== *)

Module App.

Import TileLogic.
Local Open Scope js_scope.

Inductive OpeningType : Type := door | window | mirror.

(** An entry of [state.openings]: [{id, type, width, height, x, y, wallIndex}]. *)
Record Opening : Type := mkOpening {
  id : nat;
  type : OpeningType;
  width : num;
  height : num;
  wallIndex : nat;
  x : num;
  y : num
}.

(** [tileDragState]. *)
Record DragState : Type := mkDrag {
  targetId : option nat;
  isDragging : bool;
  startX : num;
  startY : num;
  dragWallIndex : nat
}.

(** What the handlers read from the page: the value parsed from every
    input, wall rows in document order, and the mode flag. *)
Record Dom : Type := mkDom {
  wallItems : list (num * num);
  tileLength : num;
  tileWidth : num;
  groutJoint : num;
  wastePct : num;
  sqmPerBoxInput : num;
  isQuickMode : bool;
  directAreaInput : num
}.

(** [getNum]: [parseFloat(el.value) || 0]. *)
Definition getNum (v : num) : num := num0 v.

(** [getCurrentWalls]: every row is pushed, also one with a zero size. *)
Definition getCurrentWalls (dom : Dom) : list Wall :=
  map (fun '(a, b) => mkWall (num0 a) (num0 b)) (wallItems dom).

(** The fallback [walls[wallIndex] || { w: 5, h: 3 }]. *)
Definition wallAt (ws : list Wall) (i : nat) : Wall :=
  nth i ws (mkWall (Fin 5) (Fin 3)).

(** *** Mapping metres to pixels *)

Definition PAD : num := Fin 40.
Definition LABEL : num := Fin 30.

Record Mapping : Type := mkMapping { scale : num; ox : num; oy : num }.

(** [PW] and [PH] of [drawWallPanel]: [explicitW || canvas.clientWidth || 400]. *)
Definition panelSize (explicit client fallback : num) : num :=
  orElse (orElse explicit client) fallback.

(** The scale and origin of [drawWallPanel] (lines 428-456); [None] is the
    early return that draws the placeholder text. *)
Definition drawMapping (wall : Wall) (PW PH : num) : option Mapping :=
  let surfW := num0 (w wall) in
  let surfH := num0 (h wall) in
  if (surfW <=? Fin 0) || (surfH <=? Fin 0) then None
  else
    let scale := min ((PW - PAD * Fin 2) / surfW)
                     ((PH - PAD * Fin 2 - LABEL) / surfH) in
    let drawW := surfW * scale in
    let drawH := surfH * scale in
    Some {| scale := scale;
            ox := (PW - drawW) / Fin 2;
            oy := LABEL + (PH - LABEL - drawH) / Fin 2 |}.

(** The scale and origin recomputed by the mousedown and mousemove
    handlers (lines 1309-1316 and 1363-1370). *)
Definition hitMapping (wall : Wall) (PW PH : num) : Mapping :=
  let scale := min ((PW - PAD * Fin 2) / orElse (w wall) (Fin 1))
                   ((PH - PAD * Fin 2 - LABEL) / orElse (h wall) (Fin 1)) in
  {| scale := scale;
     ox := (PW - orElse (w wall) (Fin 0) * scale) / Fin 2;
     oy := LABEL + (PH - LABEL - orElse (h wall) (Fin 0) * scale) / Fin 2 |}.

(** Metres to pixels, [ox + op.x * scale], and the pointer map back,
    [(mx - ox) / scale]. *)
Definition forward (m : Mapping) (p : num * num) : num * num :=
  (ox m + fst p * scale m, oy m + snd p * scale m).


(** *** Drag and drop *)

(** The hit test of the mousedown loop. *)
Definition hits (m : Mapping) (mx my : num) (op : Opening) : bool :=
  let opX := ox m + x op * scale m in
  let opY := oy m + y op * scale m in
  let opW := width op * scale m in
  let opH := height op * scale m in
  ge mx opX && le mx (opX + opW) && ge my opY && le my (opY + opH).

(** The mousedown handler on the canvas of wall [idx], of client size
    [PW] by [PH], with the pointer at [(mx, my)] inside the canvas. *)
Definition mousedown (ws : list Wall) (ops : list Opening) (ds : DragState)
    (idx : nat) (PW PH mx my : num) : DragState :=
  let wall := wallAt ws idx in
  let m := hitMapping wall PW PH in
  let wallOpenings := filter (fun op => Nat.eqb (wallIndex op) idx) ops in
  match find (hits m mx my) (rev wallOpenings) with
  | Some op =>
      let opX := ox m + x op * scale m in
      let opY := oy m + y op * scale m in
      {| targetId := Some (id op);
         isDragging := true;
         startX := (mx - opX) / scale m;
         startY := (my - opY) / scale m;
         dragWallIndex := idx |}
  | None => ds
  end.

(** The object found by [state.openings.find] is changed in place: the
    first opening with that id. *)
Fixpoint updateFirst (t : nat) (f : Opening -> Opening) (ops : list Opening)
  : list Opening :=
  match ops with
  | [] => []
  | op :: rest =>
      if Nat.eqb (id op) t then f op :: rest
      else op :: updateFirst t f rest
  end.

Definition findOpening (t : nat) (ops : list Opening) : option Opening :=
  find (fun o => Nat.eqb (id o) t) ops.

(** The clamped position written by the mousemove handler
    (lines 1372-1375). *)
Definition dragged (wall : Wall) (m : Mapping) (ds : DragState)
    (mx my : num) (op : Opening) : Opening :=
  let newX := (mx - ox m) / scale m - startX ds in
  let newY := (my - oy m) / scale m - startY ds in
  {| id := id op; type := type op;
     width := width op; height := height op;
     wallIndex := wallIndex op;
     x := max (Fin 0) (min newX (orElse (w wall) (Fin 0) - width op));
     y := max (Fin 0) (min newY (orElse (h wall) (Fin 0) - height op)) |}.

(** The mousemove handler; [canvas] is the client size of the canvas found
    for the dragged wall, [None] when there is none. *)
Definition mousemove (ws : list Wall) (ops : list Opening) (ds : DragState)
    (canvas : option (num * num)) (mx my : num) : list Opening :=
  if negb (isDragging ds) then ops
  else
    match targetId ds with
    | None => ops
    | Some t =>
        match findOpening t ops, canvas with
        | Some _, Some (PW, PH) =>
            let wall := wallAt ws (dragWallIndex ds) in
            let m := hitMapping wall PW PH in
            updateFirst t (dragged wall m ds mx my) ops
        | _, _ => ops
        end
    end.

(** *** The calculation run *)

Definition validWall (wl : Wall) : bool := (w wl >? Fin 0) && (h wl >? Fin 0).

Definition dimsOf (o : Opening) : OpeningDims :=
  {| TileLogic.width := width o; TileLogic.height := height o |}.

(** [runCalculation]: [None] stands for [clearResults()], [Some r] for the
    result handed to [renderTileResults]. *)
Definition runCalculation (dom : Dom) (ops : list Opening) : option Result :=
  let finalWallsForLogic :=
    if isQuickMode dom then
      let directArea := num0 (directAreaInput dom) in
      if directArea <=? Fin 0 then None
      else Some [mkWall directArea (Fin 1)]
    else
      let ws := filter validWall (getCurrentWalls dom) in
      if Nat.eqb (length ws) 0 then None else Some ws in
  match finalWallsForLogic with
  | None => None
  | Some ws =>
      Some (calculateAll
              {| walls := ws;
                 openings := map dimsOf ops;
                 tileLengthCm := orElse (getNum (tileLength dom)) (Fin 60);
                 tileWidthCm := orElse (getNum (tileWidth dom)) (Fin 30);
                 groutMm := getNum (groutJoint dom);
                 wastePercent := Some (getNum (wastePct dom));
                 sqmPerBox := orElse (getNum (sqmPerBoxInput dom)) (Fin 1.44) |})
  end.

End App.

(* ================================================================== *)
(** ** app.js: the wallpaper run, its area display and its preview *)
(* ================================================================== *)

Module WallpaperApp.

Import WallpaperLogic.
Local Open Scope js_scope.

(** [Math.round]: the nearest integer, halves upwards. *)
Definition round (v : num) : num :=
  match v with
  | Fin q => Fin (inject_Z (Qfloor (q + (1#2))))
  | _ => v
  end.

(** What the wallpaper handlers read from the page: the value parsed from
    every input, the perimeter checkbox and the client width of the
    preview canvas. *)
Record WpDom : Type := mkWpDom {
  wpWallWidth : num;
  wpWallHeight : num;
  wpRollWidth : num;
  wpRollLength : num;
  wpPatternRepeat : num;
  wpRollPrice : num;
  wpPerimeterMode : bool;
  wpRoomLength : num;
  wpRoomWidth : num;
  wpCanvasWidth : num
}.

(** [gatherWallpaperParams]. *)
Definition gatherWallpaperParams (dom : WpDom) : Params :=
  {| wallWidthM := App.getNum (wpWallWidth dom);
     wallHeightM := App.getNum (wpWallHeight dom);
     rollWidthM := App.getNum (wpRollWidth dom);
     rollLengthM := App.getNum (wpRollLength dom);
     patternRepeatCm := App.getNum (wpPatternRepeat dom);
     rollPrice := App.getNum (wpRollPrice dom) |}.

(** The width both [runWallpaperCalculation] and
    [updateWallpaperAreaDisplay] take: the perimeter
    [(roomL + roomW) * 2] in perimeter mode, the wall width otherwise. *)
Definition finalWidth (dom : WpDom) : num :=
  if wpPerimeterMode dom then
    let roomL := num0 (wpRoomLength dom) in
    let roomW := num0 (wpRoomWidth dom) in
    (roomL + roomW) * Fin 2
  else App.getNum (wpWallWidth dom).

(** The parameters built by [runWallpaperCalculation] and its result. *)
Definition runParams (dom : WpDom) : Params :=
  {| wallWidthM := finalWidth dom;
     wallHeightM := App.getNum (wpWallHeight dom);
     rollWidthM := App.getNum (wpRollWidth dom);
     rollLengthM := App.getNum (wpRollLength dom);
     patternRepeatCm := App.getNum (wpPatternRepeat dom);
     rollPrice := App.getNum (wpRollPrice dom) |}.

Definition runWallpaperCalculation (dom : WpDom) : Result :=
  calcWallpaperAll (runParams dom).

(** The area written by [updateWallpaperAreaDisplay]. *)
Definition updateWallpaperAreaDisplay (dom : WpDom) : num :=
  let displayWidth :=
    if wpPerimeterMode dom then
      let roomL := num0 (wpRoomLength dom) in
      let roomW := num0 (wpRoomWidth dom) in
      (roomL + roomW) * Fin 2
    else num0 (wpWallWidth dom) in
  let wallHeight := num0 (wpWallHeight dom) in
  displayWidth * wallHeight.

(** The geometry computed by [updateWallpaperPreview] (lines 1003-1055). *)
Record Preview : Type := mkPreview {
  pvW : num;
  pvH : num;
  pvWallW : num;
  pvWallH : num;
  pvTotalStrips : num;
  pvScale : num;
  pvDrawW : num;
  pvDrawH : num;
  pvOx : num;
  pvOy : num;
  pvStripPx : num;
  pvStripsPerRoll : num
}.

(** [None] is the early return for a wall without width.  The page has no
    [wpWallLength] input, so that [getNum(DOM.wpWallLength)] is 0. *)
Definition updateWallpaperPreview (dom : WpDom) : option Preview :=
  let W := orElse (wpCanvasWidth dom) (Fin 360) in
  let H := round (W * Fin 0.55) in
  let w := orElse (App.getNum (wpWallWidth dom)) (Fin 0) in
  let l := orElse (Fin 0) (Fin 0) in
  let wallH := orElse (App.getNum (wpWallHeight dom)) (Fin 2.7) in
  let rollW := orElse (App.getNum (wpRollWidth dom)) (Fin 0.53) in
  let rollL := orElse (App.getNum (wpRollLength dom)) (Fin 10.05) in
  let rapport := orElse (App.getNum (wpPatternRepeat dom)) (Fin 0) in
  let wallW := if wpPerimeterMode dom then (w + l) * Fin 2 else w in
  if wallW <=? Fin 0 then None
  else
    let totalStrips := ceil (wallW / orElse rollW (Fin 0.53)) in
    let PAD := Fin 42 in
    let scale := min ((W - PAD * Fin 2) / wallW) ((H - PAD * Fin 2) / wallH) in
    let drawW := wallW * scale in
    let drawH := wallH * scale in
    let ox := (W - drawW) / Fin 2 in
    let oy := (H - drawH) / Fin 2 in
    let stripPx := drawW / totalStrips in
    let effStripH := calcEffectiveStripHeight wallH rapport in
    let stripsPerRoll := calcStripsPerRoll rollL effStripH in
    Some {| pvW := W; pvH := H; pvWallW := wallW; pvWallH := wallH;
            pvTotalStrips := totalStrips; pvScale := scale;
            pvDrawW := drawW; pvDrawH := drawH; pvOx := ox; pvOy := oy;
            pvStripPx := stripPx; pvStripsPerRoll := stripsPerRoll |}.

(** The left edge of strip [i], and the roll it is coloured for. *)
Definition stripX (pv : Preview) (i : num) : num := pvOx pv + i * pvStripPx pv.


End WallpaperApp.

(* ================================================================== *)
(** ** app.js: the opening list, the displays and the panels *)
(* ================================================================== *)

Module AppState.

Import TileLogic App.
Local Open Scope js_scope.

(** [OPENING_DEFAULTS]: width and height per type. *)
Definition OPENING_DEFAULTS (t : OpeningType) : num * num :=
  match t with
  | door => (Fin 0.90, Fin 2.10)
  | window => (Fin 1.20, Fin 1.40)
  | mirror => (Fin 0.80, Fin 1.00)
  end.

(** The part of [state] the opening functions use. *)
Record State : Type := mkState {
  openings : list Opening;
  nextId : nat
}.

(** [state] as [resetTiles] leaves it, and as the script starts. *)
Definition resetState : State := {| openings := []; nextId := 1 |}.

(** [addOpening(type, wallIndex)]; [None] is an argument left out. *)
Definition addOpening (ws : list Wall) (st : State)
    (type : option OpeningType) (wallIndex : option nat) : State :=
  let type := match type with Some t => t | None => door end in
  let wallIndex := match wallIndex with Some i => i | None => 0%nat end in
  let defaults := OPENING_DEFAULTS type in
  let wall := wallAt ws wallIndex in
  {| openings :=
       openings st ++
       [{| id := nextId st;
           type := type;
           width := fst defaults;
           height := snd defaults;
           wallIndex := wallIndex;
           x := max (Fin 0) ((w wall - fst defaults) / Fin 2);
           y := match type with
                | door => max (Fin 0) (h wall - snd defaults)
                | _ => max (Fin 0) ((h wall - snd defaults) / Fin 2)
                end |}];
     nextId := S (nextId st) |}.

(** [removeOpening(id)]. *)
Definition removeOpening (t : nat) (st : State) : State :=
  {| openings := filter (fun o => negb (Nat.eqb (id o) t)) (openings st);
     nextId := nextId st |}.

(** The fields [updateOpeningField] is called for with a typed value. *)
Inductive SizeField : Type := widthField | heightField.

Definition setSize (f : SizeField) (v : num) (o : Opening) : Opening :=
  match f with
  | widthField =>
      {| id := id o; type := type o; width := v; height := height o;
         wallIndex := wallIndex o; x := x o; y := y o |}
  | heightField =>
      {| id := id o; type := type o; width := width o; height := v;
         wallIndex := wallIndex o; x := x o; y := y o |}
  end.

(** [updateOpeningField(id, 'width' | 'height', value)]:
    [opening[field] = parseFloat(value) || 0]. *)
Definition updateOpeningField (t : nat) (f : SizeField) (value : num)
    (st : State) : State :=
  match findOpening t (openings st) with
  | None => st
  | Some _ =>
      {| openings := updateFirst t (setSize f (num0 value)) (openings st);
         nextId := nextId st |}
  end.

Definition setWallIndex (idx : nat) (o : Opening) : Opening :=
  {| id := id o; type := type o; width := width o; height := height o;
     wallIndex := idx; x := x o; y := y o |}.

(** [updateOpeningField(id, 'wallIndex', parseInt(value))] with the value
    of an option of the wall select, an index of the wall list. *)
Definition updateOpeningWall (t : nat) (idx : nat) (st : State) : State :=
  match findOpening t (openings st) with
  | None => st
  | Some _ =>
      {| openings := updateFirst t (setWallIndex idx) (openings st);
         nextId := nextId st |}
  end.

Definition setType (ty : OpeningType) (o : Opening) : Opening :=
  {| id := id o; type := ty;
     width := fst (OPENING_DEFAULTS ty); height := snd (OPENING_DEFAULTS ty);
     wallIndex := wallIndex o; x := x o; y := y o |}.

(** [updateOpeningType(id, type)]: the type and its default size; the
    position is kept. *)
Definition updateOpeningType (t : nat) (ty : OpeningType) (st : State)
  : State :=
  match findOpening t (openings st) with
  | None => st
  | Some _ =>
      {| openings := updateFirst t (setType ty) (openings st);
         nextId := nextId st |}
  end.

(** The mousemove handler on the state. *)
Definition dragMove (ws : list Wall) (ds : DragState)
    (canvas : option (num * num)) (mx my : num) (st : State) : State :=
  {| openings := mousemove ws (openings st) ds canvas mx my;
     nextId := nextId st |}.

(** The mouseup handler on the drag state. *)
Definition mouseup (ds : DragState) : DragState :=
  if isDragging ds then
    {| targetId := None; isDragging := false;
       startX := startX ds; startY := startY ds;
       dragWallIndex := dragWallIndex ds |}
  else ds.

(** The total written by [updateDeductionBar]. *)
Definition updateDeductionBar (st : State) : num :=
  calcTotalDeduction (map dimsOf (openings st)).

(** The gross area written by [updateGrossDisplay]: every wall row, with
    no test of its size. *)
Definition updateGrossDisplay (dom : Dom) : num :=
  fold_left (fun sum wl => sum + w wl * h wl) (getCurrentWalls dom) (Fin 0).

(** [updateLivePreview]: one panel per wall with a positive size, indexed
    in that list; [drawWallPanel] gets the wall and that index. *)
Definition validWalls (dom : Dom) : list Wall :=
  filter validWall (getCurrentWalls dom).

Definition panelWall (dom : Dom) (index : nat) : option Wall :=
  nth_error (validWalls dom) index.

(** The wall the mousedown and mousemove handlers take for the canvas
    tagged [index]. *)
Definition handlerWall (dom : Dom) (index : nat) : Wall :=
  wallAt (getCurrentWalls dom) index.

(** The openings [drawWallPanel] draws on the panel [index]. *)
Definition panelOpenings (st : State) (index : nat) : list Opening :=
  filter (fun op => Nat.eqb (wallIndex op) index) (openings st).

(** The filled share of a range slider, in percent
    ([updateRangeBackground]); the arguments are the parsed [min], [max]
    and [value] attributes. *)
Definition updateRangeBackground (rmin rmax rvalue : num) : num :=
  let min := orElse rmin (Fin 0) in
  let max := orElse rmax (Fin 100) in
  let val := orElse rvalue (Fin 0) in
  ((val - min) / (max - min)) * Fin 100.

End AppState.

(* ================================================================== *)
(** ** Layout patterns: the table of calculator-logic.js and the switch
       of app.js *)
(* ================================================================== *)

Module Patterns.

Import App String.
Local Open Scope string_scope.

(** The keys of [LAYOUT_PATTERNS]; any other string is written [other]. *)
Inductive PatternKey : Type := standard | brick | diagonal | custom.

Definition keyOf (s : string) : option PatternKey :=
  if String.eqb s "standard" then Some standard
  else if String.eqb s "brick" then Some brick
  else if String.eqb s "diagonal" then Some diagonal
  else if String.eqb s "custom" then Some custom
  else None.

(** The property names every object inherits from [Object.prototype];
    [LAYOUT_PATTERNS[name]] is then a value that is not a pattern. *)
Definition inheritedKeys : list string :=
  ["constructor"; "__defineGetter__"; "__defineSetter__"; "hasOwnProperty";
   "__lookupGetter__"; "__lookupSetter__"; "isPrototypeOf";
   "propertyIsEnumerable"; "toString"; "valueOf"; "__proto__";
   "toLocaleString"].

Definition inherited (s : string) : bool :=
  existsb (String.eqb s) inheritedKeys.

(** [wastePercent] of the entries of [LAYOUT_PATTERNS]. *)
Definition tableWaste (k : PatternKey) : num :=
  match k with
  | standard => Fin 5
  | brick => Fin 10
  | diagonal => Fin 15
  | custom => Fin 0
  end.

(** [getLayoutPattern(pattern).wastePercent]: the entry of the table, the
    default [{ wastePercent: 0 }] for a key that is missing, and [None]
    where the lookup finds an inherited member, which has no
    [wastePercent]. *)
Definition getLayoutPatternWaste (pattern : string) : option num :=
  match keyOf pattern with
  | Some k => Some (tableWaste k)
  | None => if inherited pattern then None else Some (Fin 0)
  end.

(** The [switch] of [applyLayoutPattern]. *)
Definition wasteVal (patternKey : string) : num :=
  if String.eqb patternKey "standard" then Fin 5
  else if String.eqb patternKey "brick" then Fin 10
  else if String.eqb patternKey "diagonal" then Fin 15
  else if String.eqb patternKey "custom" then Fin 0
  else Fin 0.

(** [applyLayoutPattern]: the waste slider takes the value of the
    pattern; the calculation then runs on the page so changed. *)
Definition applyLayoutPattern (patternKey : string) (dom : Dom) : Dom :=
  {| wallItems := wallItems dom;
     tileLength := tileLength dom;
     tileWidth := tileWidth dom;
     groutJoint := groutJoint dom;
     wastePct := wasteVal patternKey;
     sqmPerBoxInput := sqmPerBoxInput dom;
     isQuickMode := isQuickMode dom;
     directAreaInput := directAreaInput dom |}.

End Patterns.

(* ================================================================== *)
(** ** calculator-logic.js: calcGrossArea *)
(* ================================================================== *)

Module TileGross.

Import TileLogic.
Local Open Scope js_scope.

(** The two call forms: an array of [{width, height}], or a length with
    a height as second argument. *)
Inductive GrossArg : Type :=
| wallsArg (ws : list OpeningDims)
| lengthArg (length : num).

Definition calcGrossArea (wallsOrLength : GrossArg) (height : num) : num :=
  match wallsOrLength with
  | wallsArg ws =>
      fold_left
        (fun sum wl => sum + num0 (TileLogic.width wl) * num0 (TileLogic.height wl))
        ws (Fin 0)
  | lengthArg length => num0 length * num0 height
  end.

End TileGross.

(* ================================================================== *)
(** ** Inputs and properties the statements refer to *)
(* ================================================================== *)

Module TileProps.

Import TileLogic.
Local Open Scope js_scope.

(** The scenario of the specification: two walls of 3.00 m by 2.50 m,
    tiles of 60 cm by 30 cm, no opening, 10% waste. *)
Definition scenario : Params :=
  {| walls := [mkWall (Fin 3) (Fin 2.5); mkWall (Fin 3) (Fin 2.5)];
     openings := [];
     tileLengthCm := Fin 60;
     tileWidthCm := Fin 30;
     groutMm := Fin 3;
     wastePercent := Some (Fin 10);
     sqmPerBox := Fin 1.44 |}.


(** The bound of one tile around the exact quotient product, for the count
    [finalX * finalY] of one wall. *)
Definition withinOneTile (tL tW W H : Q) : Prop :=
  exists t : Q,
    wallTiles (Fin tL) (Fin tW) (Fin W) (Fin H) = Fin t /\
    ((W / tL) * (H / tW) - 1 <= t)%Q /\
    (t <= (W / tL) * (H / tW) + 1)%Q.


(** Openings given by finite sizes, and the plain sum of their areas. *)
Definition dimsQ (s : Q * Q) : OpeningDims :=
  {| width := Fin (fst s); height := Fin (snd s) |}.

Fixpoint sumAreasQ (l : list (Q * Q)) : Q :=
  match l with
  | [] => 0
  | s :: rest => (fst s * snd s + sumAreasQ rest)%Q
  end.


(** One wall of 3.00 m by 2.50 m and a tile length of 0 cm, then of
    -50 cm, as [calculateAll] may receive them. *)
Definition tileOf (lengthCm widthCm : Q) : Params :=
  {| walls := [mkWall (Fin 3) (Fin 2.5)];
     openings := [];
     tileLengthCm := Fin lengthCm;
     tileWidthCm := Fin widthCm;
     groutMm := Fin 3;
     wastePercent := Some (Fin 10);
     sqmPerBox := Fin 1.44 |}.

Definition zeroTile : Params := tileOf 0 25.
Definition negativeTile : Params := tileOf (-50) 25.

(** Parameters given by finite numbers; [wp] is the waste percent, absent
    when [None]. *)
Definition wallQ (s : Q * Q) : Wall := {| w := Fin (fst s); h := Fin (snd s) |}.

Definition paramsQ (ws os : list (Q * Q)) (tl tw g : Q) (wp : option Q)
    (sb : Q) : Params :=
  {| walls := map wallQ ws;
     openings := map dimsQ os;
     tileLengthCm := Fin tl;
     tileWidthCm := Fin tw;
     groutMm := Fin g;
     wastePercent := option_map Fin wp;
     sqmPerBox := Fin sb |}.



End TileProps.


Module WallpaperProps.

Import WallpaperLogic.
Local Open Scope js_scope.

(** The scenario of the specification: rolls of 0.53 m by 10.05 m, a wall
    of 4.00 m by 2.70 m, no pattern repeat. *)
Definition scenario : Params :=
  {| wallWidthM := Fin 4.00;
     wallHeightM := Fin 2.70;
     rollWidthM := Fin 0.53;
     rollLengthM := Fin 10.05;
     patternRepeatCm := Fin 0;
     rollPrice := Fin 25 |}.


(** Parameters given by finite numbers. *)
Definition paramsQ (ww wh rw rl pr price : Q) : Params :=
  {| wallWidthM := Fin ww;
     wallHeightM := Fin wh;
     rollWidthM := Fin rw;
     rollLengthM := Fin rl;
     patternRepeatCm := Fin pr;
     rollPrice := Fin price |}.

End WallpaperProps.

Module AppProps.

Import TileLogic App.
Local Open Scope js_scope.



(** The position bounds [0 <= x <= wallWidth - width] and
    [0 <= y <= wallHeight - height]. *)
Definition withinWall (wall : Wall) (op : Opening) : bool :=
  (Fin 0 <=? x op) && (x op <=? w wall - width op) &&
  (Fin 0 <=? y op) && (y op <=? h wall - height op).

(** A door of 0.90 m by 2.10 m on a wall of 3 m by 2 m, being dragged. *)
Definition lowWall : list Wall := [mkWall (Fin 3) (Fin 2)].

Definition tallDoor : Opening :=
  {| id := 1; type := door; width := Fin 0.90; height := Fin 2.10;
     wallIndex := 0; x := Fin 1; y := Fin 0 |}.

Definition draggingDoor : DragState :=
  {| targetId := Some 1%nat; isDragging := true;
     startX := Fin 0.1; startY := Fin 0.1; dragWallIndex := 0 |}.






End AppProps.

(* ================================================================== *)
(** ** Inputs the further statements refer to *)
(* ================================================================== *)

Module TileProps2.

Import TileLogic.
Local Open Scope js_scope.

(** The same parameters with another wall list, another waste percent. *)
Definition setWalls (p : Params) (ws : list Wall) : Params :=
  {| walls := ws;
     openings := openings p;
     tileLengthCm := tileLengthCm p;
     tileWidthCm := tileWidthCm p;
     groutMm := groutMm p;
     wastePercent := wastePercent p;
     sqmPerBox := sqmPerBox p |}.

(** A wall that [calculateAll] counts: positive width and height. *)
Definition counted (wl : Wall) : bool :=
  (num0 (w wl) >? Fin 0) && (num0 (h wl) >? Fin 0).

(** Sizes that are not negative. *)
Definition nonnegSizes (l : list (Q * Q)) : Prop :=
  forall s, In s l -> (0 <= fst s)%Q /\ (0 <= snd s)%Q.

(** The waste percent given, 0 when absent. *)
Definition wasteQ (wp : option Q) : Q :=
  match wp with Some x => x | None => 0 end.

(** Two walls of 3.00 m by 2.50 m with a door of 0.90 m by 2.10 m, tiles
    of 60 cm by 30 cm, 10 percent waste, boxes of 1.44 square metres. *)
Definition roomWithDoor : Params :=
  TileProps.paramsQ [(3, 2.5); (3, 2.5)] [(0.9, 2.1)] 60 30 3 (Some 10%Q) 1.44.

(** The same room with 15 percent waste. *)
Definition roomWithDoor15 : Params :=
  TileProps.paramsQ [(3, 2.5); (3, 2.5)] [(0.9, 2.1)] 60 30 3 (Some 15%Q) 1.44.

(** A wall row without width. *)
Definition noWidth : Params :=
  setWalls TileProps.scenario [mkWall (Fin 0) (Fin 2.5)].

(** No wall of the list has a positive width and a positive height. *)
Definition noWallCounted (ws : list Wall) : Prop :=
  forall wl, In wl ws -> App.validWall wl = false.

End TileProps2.

Module WallpaperProps2.

Import WallpaperLogic.
Local Open Scope js_scope.

(** The same parameters with another pattern repeat. *)
Definition setPattern (p : Params) (pr : num) : Params :=
  {| wallWidthM := wallWidthM p;
     wallHeightM := wallHeightM p;
     rollWidthM := rollWidthM p;
     rollLengthM := rollLengthM p;
     patternRepeatCm := pr;
     rollPrice := rollPrice p |}.

(** The wallpaper page filled with the scenario: a wall of 4.00 m by
    2.70 m, rolls of 0.53 m by 10.05 m, a room of 5 m by 4 m, a preview
    canvas 360 pixels wide. *)
Definition samplePage : WallpaperApp.WpDom :=
  {| WallpaperApp.wpWallWidth := Fin 4;
     WallpaperApp.wpWallHeight := Fin 2.7;
     WallpaperApp.wpRollWidth := Fin 0.53;
     WallpaperApp.wpRollLength := Fin 10.05;
     WallpaperApp.wpPatternRepeat := Fin 0;
     WallpaperApp.wpRollPrice := Fin 25;
     WallpaperApp.wpPerimeterMode := false;
     WallpaperApp.wpRoomLength := Fin 5;
     WallpaperApp.wpRoomWidth := Fin 4;
     WallpaperApp.wpCanvasWidth := Fin 360 |}.

(** The reserve added to the wall height: 0.80 m with a pattern repeat. *)
Definition reserveQ (pr : Q) : Q :=
  if Qltb 0 pr then 0.80 else 0.

End WallpaperProps2.

Module AppProps2.

Import TileLogic App AppState.
Local Open Scope js_scope.

(** Ids are unique and below the next id to hand out. *)
Definition idsFresh (st : State) : Prop :=
  NoDup (map id (openings st)) /\
  Forall (fun i => (1 <= i < nextId st)%nat) (map id (openings st)) /\
  (1 <= nextId st)%nat.

(** The states the handlers can reach from the reset state, whatever the
    walls on the page at each step. *)
Inductive reachable : State -> Prop :=
| reach_reset : reachable resetState
| reach_add (ws : list Wall) (st : State) (ty : option OpeningType)
    (idx : option nat) :
    reachable st -> reachable (addOpening ws st ty idx)
| reach_remove (t : nat) (st : State) :
    reachable st -> reachable (removeOpening t st)
| reach_field (t : nat) (f : SizeField) (v : num) (st : State) :
    reachable st -> reachable (updateOpeningField t f v st)
| reach_wall (t idx : nat) (st : State) :
    reachable st -> reachable (updateOpeningWall t idx st)
| reach_type (t : nat) (ty : OpeningType) (st : State) :
    reachable st -> reachable (updateOpeningType t ty st)
| reach_move (ws : list Wall) (ds : DragState) (canvas : option (num * num))
    (mx my : num) (st : State) :
    reachable st -> reachable (dragMove ws ds canvas mx my st).

(** A page with two wall rows, 4 m by 3 m and 5 m by 3 m. *)
Definition twoWallDom : Dom :=
  {| wallItems := [(Fin 4, Fin 3); (Fin 5, Fin 3)];
     tileLength := Fin 60; tileWidth := Fin 30; groutJoint := Fin 3;
     wastePct := Fin 10; sqmPerBoxInput := Fin 1.44;
     isQuickMode := false; directAreaInput := Fin 0 |}.

(** The state after one door was added on a page without wall rows. *)
Definition oneDoorState : State := addOpening [] resetState None None.

(** A door at (1, 0.9) on the first wall, and the idle drag state. *)
Definition doorAt1 : Opening :=
  {| id := 1; type := door; width := Fin 0.9; height := Fin 2.1;
     wallIndex := 0; x := Fin 1; y := Fin 0.9 |}.

Definition idle : DragState :=
  {| targetId := None; isDragging := false;
     startX := Fin 0; startY := Fin 0; dragWallIndex := 0 |}.

(** Two openings that differ at most in their position. *)
Definition sameButPosition (o o' : Opening) : Prop :=
  id o' = id o /\ type o' = type o /\ width o' = width o /\
  height o' = height o /\ wallIndex o' = wallIndex o.

(** [st'] is [st] with the opening [t] replaced by its image under [f]:
    the other openings, the order, the ids and [nextId] are kept, and an
    id that names no opening changes nothing. *)
Definition editsOnly (t : nat) (f : Opening -> Opening) (st st' : State)
  : Prop :=
  nextId st' = nextId st /\
  map id (openings st') = map id (openings st) /\
  (forall t' : nat, t' <> t ->
     findOpening t' (openings st') = findOpening t' (openings st)) /\
  (findOpening t (openings st) = None -> st' = st) /\
  (forall o : Opening, findOpening t (openings st) = Some o ->
     findOpening t (openings st') = Some (f o)).

(** Wall rows whose inputs hold finite numbers. *)
Definition wallInputsQ (l : list (Q * Q)) : list (num * num) :=
  map (fun s => (Fin (fst s), Fin (snd s))) l.

(** The opening lies within the wall: the bounds as rationals. *)
Definition fitsWall (W H : Q) (xq yq ow oh : Q) : Prop :=
  (0 <= xq)%Q /\ (xq + ow <= W)%Q /\ (0 <= yq)%Q /\ (yq + oh <= H)%Q.

End AppProps2.

Module PatternProps.

Import String.
Local Open Scope string_scope.

(** The key of the brick pattern. *)
Definition brickKey : string := "brick".

End PatternProps.

(* ================================================================== *)
(** ** Facts about JavaScript numbers *)
(* ================================================================== *)

Section NumFacts.

Local Open Scope Q_scope.

Lemma Qltb_lt (a b : Q) : Qltb a b = true <-> a < b.
Proof.
  unfold Qltb. rewrite negb_true_iff.
  split; intro H.
  - apply Qnot_le_lt. intro Hle. apply Qle_bool_iff in Hle. congruence.
  - destruct (Qle_bool b a) eqn:E; [|reflexivity].
    apply Qle_bool_iff in E. exfalso. apply (Qlt_not_le _ _ H E).
Qed.

Lemma Qltb_ge (a b : Q) : Qltb a b = false <-> b <= a.
Proof.
  unfold Qltb. rewrite negb_false_iff. apply Qle_bool_iff.
Qed.

Lemma Qle_bool_gt (a b : Q) : Qle_bool a b = false <-> b < a.
Proof.
  rewrite <- Qltb_lt. unfold Qltb.
  destruct (Qle_bool a b); simpl; split; congruence.
Qed.

Lemma Qeq_bool_false (a b : Q) : Qeq_bool a b = false <-> ~ a == b.
Proof.
  split; intro H.
  - intro E. apply Qeq_bool_iff in E. congruence.
  - destruct (Qeq_bool a b) eqn:E; [|reflexivity].
    apply Qeq_bool_iff in E. contradiction.
Qed.

Lemma gt_Fin (a b : Q) : gt (Fin a) (Fin b) = true <-> b < a.
Proof. unfold gt; simpl. apply Qltb_lt. Qed.

Lemma gt_Fin_false (a b : Q) : gt (Fin a) (Fin b) = false <-> a <= b.
Proof. unfold gt; simpl. apply Qltb_ge. Qed.

Lemma le_Fin (a b : Q) : le (Fin a) (Fin b) = true <-> a <= b.
Proof. simpl. apply Qle_bool_iff. Qed.

Lemma le_Fin_false (a b : Q) : le (Fin a) (Fin b) = false <-> b < a.
Proof. simpl. apply Qle_bool_gt. Qed.



Lemma le_not_gt (a b : num) : le a b = true -> gt a b = false.
Proof.
  destruct a as [p| | |], b as [q| | |]; try reflexivity; try discriminate.
  intro H. apply le_Fin in H. apply gt_Fin_false. exact H.
Qed.

(** [parseFloat(x) || 0] is idempotent, and the identity on a finite
    number up to the representation of zero. *)
Lemma num0_idem (v : num) : num0 (num0 v) = num0 v.
Proof.
  destruct v as [q| | |]; try reflexivity.
  unfold num0, orElse, parseFloat; simpl.
  destruct (Qeq_bool q 0) eqn:E; simpl; [reflexivity|].
  rewrite E. reflexivity.
Qed.

Lemma num0_Fin_nonzero (q : Q) : ~ q == 0 -> num0 (Fin q) = Fin q.
Proof.
  intro H. unfold num0, orElse, parseFloat; simpl.
  apply Qeq_bool_false in H. rewrite H. reflexivity.
Qed.

Lemma num0_Fin_pos (q : Q) : 0 < q -> num0 (Fin q) = Fin q.
Proof.
  intro H. apply num0_Fin_nonzero. intro E. rewrite E in H. discriminate H.
Qed.

Lemma orElse_Fin_nonzero (q : Q) (d : num) :
  ~ q == 0 -> orElse (Fin q) d = Fin q.
Proof.
  intro H. unfold orElse; simpl.
  apply Qeq_bool_false in H. rewrite H. reflexivity.
Qed.

Lemma eqvb_eqv (a b : num) : eqvb a b = true <-> eqv a b.
Proof.
  destruct a, b; simpl;
    first [ apply Qeq_bool_iff
          | split; [discriminate | contradiction]
          | split; trivial ].
Qed.

Lemma div_Fin (a b : Q) : ~ b == 0 -> div (Fin a) (Fin b) = Fin (a / b).
Proof.
  intro H. simpl. apply Qeq_bool_false in H. rewrite H. reflexivity.
Qed.

(** Rounding: the ceiling is at most one above the floor, and the
    quotient [%] takes for a number that is not negative is its floor. *)
Lemma Qceiling_le_floor_succ (c : Q) : (Qceiling c <= Qfloor c + 1)%Z.
Proof.
  assert (H : (Qceiling c - 1 < Qfloor c + 1)%Z).
  { rewrite Zlt_Qlt.
    apply Qlt_trans with c; [apply Qceiling_lt | apply Qlt_floor]. }
  lia.
Qed.

Lemma Qtrunc_nonneg (c : Q) : 0 <= c -> Qtrunc (c / 1) = Qfloor c.
Proof.
  intro H. unfold Qtrunc.
  assert (E : c / 1 == c) by (field).
  destruct (Qle_bool 0 (c / 1)) eqn:B.
  - apply Qfloor_comp. exact E.
  - apply Qle_bool_gt in B. rewrite E in B.
    exfalso. apply (Qlt_not_le _ _ B H).
Qed.

Lemma rem_one (c : Q) :
  rem (Fin c) (Fin 1) = Fin (c - 1 * inject_Z (Qtrunc (c / 1))).
Proof. reflexivity. Qed.

Lemma inject_Z_succ (z : Z) : inject_Z (z + 1) == inject_Z z + 1.
Proof. rewrite inject_Z_plus. reflexivity. Qed.

Lemma Qdiv_pos (a b : Q) : 0 < a -> 0 < b -> 0 < a / b.
Proof.
  intros Ha Hb. unfold Qdiv.
  apply Qmult_lt_0_compat; [exact Ha | apply Qinv_lt_0_compat; exact Hb].
Qed.

Lemma Qpos_neq0 (a : Q) : 0 < a -> ~ a == 0.
Proof. intros H E. rewrite E in H. discriminate H. Qed.

(** Associativity of the product and the neutral zero of the sum hold on
    the representation itself, not only up to [==]. *)
Lemma Qmult_assoc_eq (a b c : Q) : a * (b * c) = a * b * c.
Proof.
  destruct a as [na da], b as [nb db], c as [nc dc].
  unfold Qmult; simpl. f_equal; [ring | apply Pos.mul_assoc].
Qed.

Lemma Qplus_0_r_eq (a : Q) : a + 0 = a.
Proof.
  destruct a as [na da]. unfold Qplus; simpl.
  f_equal; [ring | apply Pos.mul_1_r].
Qed.

Lemma add_zero_r (x : num) : add x (Fin 0) = x.
Proof.
  destruct x as [q| | |]; try reflexivity.
  simpl. f_equal. apply Qplus_0_r_eq.
Qed.

(** Case analysis on every sign test of the goal. *)
Ltac sgn_cases :=
  repeat match goal with
         | |- context [(?q ?= 0)%Q] => destruct (Qcompare_spec q 0)
         end.

(** The product of numbers is associative, infinities and [NaN]
    included. *)
Lemma mul_assoc (x y z : num) : mul x (mul y z) = mul (mul x y) z.
Proof.
  destruct x as [a| | |], y as [b| | |], z as [c| | |]; cbn;
    try reflexivity;
    try (f_equal; apply Qmult_assoc_eq);
    repeat (sgn_cases; cbn); try reflexivity; try (exfalso; nra).
Qed.

(** [parseFloat(x) || 0] of a finite number is that number, up to the
    representation of zero. *)
Lemma num0_Fin_eqv (a : Q) : exists a', num0 (Fin a) = Fin a' /\ (a' == a)%Q.
Proof.
  unfold num0, orElse, parseFloat; simpl.
  destruct (Qeq_bool a 0) eqn:E; simpl.
  - exists 0%Q. split; [reflexivity|]. apply Qeq_bool_iff in E.
    symmetry; exact E.
  - exists a. split; reflexivity.
Qed.

End NumFacts.

(* ================================================================== *)
(** ** The half-up rule and the tile count *)
(* ================================================================== *)

Module TileFacts.

Import TileLogic TileProps.
Local Open Scope js_scope.




(** The record returned by [calculateAll], field by field. *)
Lemma calculateAll_eq (p : Params) :
  let tLenM := tLenM_of p in
  let tWidM := tWidM_of p in
  let tb0 := fst (wallsLoop tLenM tWidM (walls p)) in
  let tg := snd (wallsLoop tLenM tWidM (walls p)) in
  let td := calcTotalDeduction (openings p) in
  let tb := totalBaseCount_of p in
  let fc := ceil (tb * (Fin 1 + waste_of p / Fin 100)) in
  tb = deductedBase tLenM tWidM tb0 tg td /\
  calculateAll p =
  {| grossArea := tg;
     totalDeduction := td;
     netArea := max (Fin 0) (tg - td);
     baseCount := ceil tb;
     finalCount := fc;
     purchaseArea := fc * (tLenM * tWidM);
     boxCount := if num0 (sqmPerBox p) >? Fin 0
                 then ceil (fc * (tLenM * tWidM) / num0 (sqmPerBox p))
                 else Fin 0;
     wasteTiles := fc - ceil tb |}.
Proof.
  cbv zeta. unfold calculateAll, totalBaseCount_of.
  destruct (wallsLoop (tLenM_of p) (tWidM_of p) (walls p)) as [tb0 tg].
  split; reflexivity.
Qed.



Lemma deduction_finite (l : list (Q * Q)) (s : Q) :
  exists t : Q,
    fold_left (fun sum op => sum + num0 (width op) * num0 (height op))
              (map dimsQ l) (Fin s) = Fin t /\
    (t == s + sumAreasQ l)%Q.
Proof.
  revert s. induction l as [|[a b] rest IH]; intro s; simpl.
  - exists s. split; [reflexivity|]. ring.
  - destruct (num0_Fin_eqv a) as [a' [Ea Ha]].
    destruct (num0_Fin_eqv b) as [b' [Eb Hb]].
    rewrite Ea, Eb. simpl.
    destruct (IH (s + a' * b')%Q) as [t [Et Ht]].
    exists t. split; [exact Et|]. rewrite Ht, Ha, Hb. ring.
Qed.


(** C6. The tile dimensions are not guarded.  With a tile length of 0 the
    wall contributes [Infinity], and the result carries [Infinity] and
    [NaN]; with a tile length of -50 cm the wall contributes -60 tiles and
    the counts are negative. *)
Theorem tile_dimension_unguarded :
  (fst (wallsLoop (tLenM_of zeroTile) (tWidM_of zeroTile) (walls zeroTile))
     = PInf /\
   baseCount (calculateAll zeroTile) = PInf /\
   finalCount (calculateAll zeroTile) = PInf /\
   purchaseArea (calculateAll zeroTile) = NaN /\
   boxCount (calculateAll zeroTile) = NaN /\
   wasteTiles (calculateAll zeroTile) = NaN) /\
  (fst (wallsLoop (tLenM_of negativeTile) (tWidM_of negativeTile)
                  (walls negativeTile)) ~= Fin (-60) /\
   baseCount (calculateAll negativeTile) = Fin (-60) /\
   finalCount (calculateAll negativeTile) = Fin (-66) /\
   wasteTiles (calculateAll negativeTile) ~= Fin (-6)).
Proof.
  repeat split; try (apply eqvb_eqv); vm_compute; reflexivity.
Qed.

(** One axis: the rule never goes below the exact quotient and never more
    than half a tile above it. *)
Lemma axisCount_bounds (c : Q) :
  (0 <= c)%Q ->
  exists a : Q, axisCount (Fin c) = Fin a /\ (c <= a)%Q /\ (a <= c + (1#2))%Q.
Proof.
  intro Hc. unfold axisCount. rewrite rem_one, (Qtrunc_nonneg c Hc).
  pose proof (Qfloor_le c) as Hfl.
  pose proof (Qlt_floor c) as Hlt. rewrite inject_Z_succ in Hlt.
  pose proof (Qle_ceiling c) as Hce.
  pose proof (Qceiling_le_floor_succ c) as Hcf.
  rewrite Zle_Qle, inject_Z_succ in Hcf.
  set (f := inject_Z (Qfloor c)) in *.
  set (g := inject_Z (Qceiling c)) in *.
  assert (Eg : ceil (Fin c) = Fin g) by reflexivity.
  assert (Ef : floor (Fin c) = Fin f) by reflexivity.
  rewrite Eg, Ef. clearbody f g.
  destruct (seq (Fin (c - 1 * f)) (Fin 0)) eqn:E0.
  - exists c. split; [reflexivity|]. split; lra.
  - destruct (gt (Fin (c - 1 * f)) (Fin 0.5)) eqn:E5.
    + apply gt_Fin in E5. exists g. split; [reflexivity|]. split; lra.
    + apply gt_Fin_false in E5. exists (f + 0.5)%Q.
      split; [reflexivity|]. split; lra.
Qed.

(** One wall: the product of the two axis results is finite and bounded
    by the products of the bounds. *)
Lemma wallTiles_finite (tL tW W H : Q) :
  (0 < tL)%Q -> (0 < tW)%Q -> (0 < W)%Q -> (0 < H)%Q ->
  exists t : Q,
    wallTiles (Fin tL) (Fin tW) (Fin W) (Fin H) = Fin t /\
    ((W / tL) * (H / tW) <= t)%Q /\
    (t <= (W / tL + (1#2)) * (H / tW + (1#2)))%Q.
Proof.
  intros HtL HtW HW HH. unfold wallTiles.
  rewrite (div_Fin _ _ (Qpos_neq0 _ HtL)), (div_Fin _ _ (Qpos_neq0 _ HtW)).
  pose proof (Qdiv_pos _ _ HW HtL) as Hx.
  pose proof (Qdiv_pos _ _ HH HtW) as Hy.
  set (cx := (W / tL)%Q) in *. set (cy := (H / tW)%Q) in *.
  clearbody cx cy.
  destruct (axisCount_bounds cx (Qlt_le_weak _ _ Hx)) as [ax [Ex [Hx1 Hx2]]].
  destruct (axisCount_bounds cy (Qlt_le_weak _ _ Hy)) as [ay [Ey [Hy1 Hy2]]].
  rewrite Ex, Ey. exists (ax * ay)%Q.
  split; [reflexivity|].
  split; nra.
Qed.

(** C5, as stated, fails: with tiles of 1 m by 1 m a wall of 10.25 m by
    10.25 m counts 10.5 * 10.5 = 110.25 tiles, more than
    10.25 * 10.25 + 1 = 106.0625. *)
Lemma within_one_tile_fails : ~ withinOneTile 1 1 10.25 10.25.
Proof.
  intros [t [E [_ H]]].
  vm_compute in E. injection E as <-.
  apply Qle_bool_iff in H. vm_compute in H. discriminate H.
Qed.

(** C5, amended. For wall and tile dimensions all positive, the count
    [finalX * finalY] of the wall is at least [(W/tL) * (H/tW)] (hence at
    least that minus 1) and at most [(W/tL + 1/2) * (H/tW + 1/2)]. *)
Theorem wall_count_bounds (tL tW W H : Q) :
  (0 < tL)%Q -> (0 < tW)%Q -> (0 < W)%Q -> (0 < H)%Q ->
  exists t : Q,
    wallTiles (Fin tL) (Fin tW) (Fin W) (Fin H) = Fin t /\
    ((W / tL) * (H / tW) - 1 <= t)%Q /\
    ((W / tL) * (H / tW) <= t)%Q /\
    (t <= (W / tL + (1#2)) * (H / tW + (1#2)))%Q.
Proof.
  intros HtL HtW HW HH.
  destruct (wallTiles_finite tL tW W H HtL HtW HW HH) as [t [E [H1 H2]]].
  exists t. repeat split; try assumption. lra.
Qed.

Lemma wall_count_bounds_witness :
  exists t : Q,
    wallTiles (Fin 0.6) (Fin 0.3) (Fin 3) (Fin 2.5) = Fin t /\
    ((3 / 0.6) * (2.5 / 0.3) - 1 <= t)%Q /\
    ((3 / 0.6) * (2.5 / 0.3) <= t)%Q /\
    (t <= (3 / 0.6 + (1#2)) * (2.5 / 0.3 + (1#2)))%Q.
Proof.
  exact (wall_count_bounds 0.6 0.3 3 2.5 eq_refl eq_refl eq_refl eq_refl).
Defined.



Lemma tileM_pos (cm : Q) :
  (0 < cm)%Q ->
  num0 (Fin cm) / Fin 100 = Fin (cm / 100) /\ (0 < cm / 100)%Q.
Proof.
  intro H. rewrite (num0_Fin_pos _ H). split.
  - apply div_Fin. discriminate.
  - apply Qdiv_pos; [exact H | reflexivity].
Qed.








End TileFacts.

(* ================================================================== *)
(** ** The wallpaper estimator *)
(* ================================================================== *)

Module WallpaperFacts.
Import WallpaperLogic WallpaperSpec WallpaperProps.
Local Open Scope js_scope.

(** [calcStripsPerRoll] parses its arguments again; on the effective
    height that changes nothing. *)
Lemma stripsPerRoll_guard (len eff : num) :
  calcStripsPerRoll len eff =
  if eff >? Fin 0 then floor (num0 len / eff) else Fin 0.
Proof.
  unfold calcStripsPerRoll.
  destruct eff as [q| | |]; try reflexivity.
  assert (N : num0 (Fin q) = if Qeq_bool q 0 then Fin 0 else Fin q).
  { unfold num0, orElse, parseFloat, truthy.
    destruct (Qeq_bool q 0); reflexivity. }
  rewrite N. clear N.
  destruct (Qeq_bool q 0) eqn:E.
  - apply Qeq_bool_iff in E.
    assert (G : (Fin q >? Fin 0) = false).
    { apply gt_Fin_false. rewrite E. apply Qle_refl. }
    rewrite G. reflexivity.
  - destruct (Fin q <=? Fin 0) eqn:L.
    + rewrite (le_not_gt _ _ L). reflexivity.
    + apply le_Fin_false in L. apply gt_Fin in L. rewrite L. reflexivity.
Qed.

Lemma effectiveHeight_guarded (hh r : num) :
  calcEffectiveStripHeight hh r =
  guardedEffectiveStripHeight (num0 hh) (num0 r).
Proof.
  unfold calcEffectiveStripHeight, guardedEffectiveStripHeight.
  destruct (num0 hh <=? Fin 0); [reflexivity|].
  destruct (num0 r >? Fin 0); [reflexivity|].
  apply add_zero_r.
Qed.

Lemma calcWallpaperAll_guarded (p : Params) :
  calcWallpaperAll p = guardedChain p.
Proof.
  unfold calcWallpaperAll, guardedChain, chain, calcWallArea.
  rewrite stripsPerRoll_guard, effectiveHeight_guarded.
  rewrite !num0_idem, !mul_assoc. reflexivity.
Qed.





Lemma Qceiling_nonneg_Q (d : Q) : (0 <= d)%Q -> (0 <= inject_Z (Qceiling d))%Q.
Proof. intro H. apply Qle_trans with d; [exact H | apply Qle_ceiling]. Qed.


Lemma Qdiv_nonneg (a b : Q) : (0 <= a)%Q -> (0 < b)%Q -> (0 <= a / b)%Q.
Proof.
  intros Ha Hb. apply Qle_shift_div_l; [exact Hb|]. lra.
Qed.

Lemma Qdiv_mult_cancel (a b : Q) : (0 < b)%Q -> (a / b * b == a)%Q.
Proof. intro H. field. apply Qpos_neq0. exact H. Qed.

(** Strips for the wall. *)
Lemma totalStrips_facts (ww rw : Q) :
  (0 <= ww)%Q ->
  exists S : Q,
    (if Fin rw >? Fin 0 then ceil (Fin ww / Fin rw) else Fin 0) = Fin S /\
    (0 <= S)%Q /\
    ((0 < S)%Q -> (0 < rw)%Q /\ (0 < ww)%Q /\ (ww <= S * rw)%Q).
Proof.
  intro Hww. destruct (Fin rw >? Fin 0) eqn:G.
  - apply gt_Fin in G. rewrite (div_Fin _ _ (Qpos_neq0 _ G)). cbn [ceil].
    pose proof (Qdiv_nonneg ww rw Hww G) as Hd.
    pose proof (Qdiv_mult_cancel ww rw G) as Hc.
    pose proof (Qle_ceiling (ww / rw)) as Hce.
    exists (inject_Z (Qceiling (ww / rw))).
    split; [reflexivity|]. split; [apply Qceiling_nonneg_Q; exact Hd|].
    intro HS. split; [exact G|]. split.
    + destruct (Qle_lt_or_eq _ _ Hww) as [Hlt|Heq]; [exact Hlt|].
      exfalso.
      assert (E : (ww / rw == 0)%Q) by (rewrite <- Heq; field; apply Qpos_neq0; exact G).
      rewrite (Qceiling_comp _ _ E) in HS. discriminate HS.
    + set (d := (ww / rw)%Q) in *. clearbody d.
      set (S := inject_Z (Qceiling d)) in *. clearbody S. nra.
  - exists 0%Q. split; [reflexivity|]. split; [apply Qle_refl|].
    intro H. discriminate H.
Qed.





Lemma nonneg_eqv (a a' : Q) : (a' == a)%Q -> (0 <= a)%Q -> (0 <= a')%Q.
Proof. intros E H. rewrite E. exact H. Qed.



End WallpaperFacts.

(* ================================================================== *)
(** ** Preview geometry, drag and the calculation run *)
(* ================================================================== *)

Module AppFacts.

Import TileLogic TileProps TileFacts App AppProps.
Local Open Scope js_scope.

Lemma min_Fin (a b : Q) :
  exists s : Q, min (Fin a) (Fin b) = Fin s /\ (s == Qmin a b)%Q.
Proof.
  unfold min. destruct (Fin b <? Fin a) eqn:E.
  - exists b. split; [reflexivity|]. apply Qltb_lt in E.
    symmetry. apply Q.min_r. apply Qlt_le_weak. exact E.
  - exists a. split; [reflexivity|]. apply Qltb_ge in E.
    symmetry. apply Q.min_l. exact E.
Qed.



(** A size passed by the caller, when it is not 0, is the size drawn. *)
Lemma panelSize_explicit (PW : Q) (client fallback : num) :
  ~ (PW == 0)%Q -> panelSize (Fin PW) client fallback = Fin PW.
Proof.
  intro H. unfold panelSize.
  rewrite (orElse_Fin_nonzero _ client H).
  apply orElse_Fin_nonzero. exact H.
Qed.





(** [Math.max(0, Math.min(v, c))] for a position [v] that is a number. *)
Lemma clamp_facts (v : num) (c : Q) :
  v <> NaN ->
  exists x' : Q,
    max (Fin 0) (min v (Fin c)) = Fin x' /\
    (0 <= x')%Q /\
    (forall B : Q, (0 <= B)%Q -> (c <= B)%Q -> (x' <= B)%Q).
Proof.
  intro Hv.
  assert (Hm : min v (Fin c) = NInf \/
               exists u : Q, min v (Fin c) = Fin u /\ (u <= c)%Q).
  { destruct v as [q| | |]; [| | |contradiction].
    - right. unfold min. destruct (Fin c <? Fin q) eqn:E.
      + exists c. split; [reflexivity | apply Qle_refl].
      + exists q. split; [reflexivity|]. apply Qltb_ge in E. exact E.
    - right. exists c. split; [reflexivity | apply Qle_refl].
    - left. reflexivity. }
  destruct Hm as [-> | [u [-> Hu]]].
  - exists 0%Q. split; [reflexivity|]. split; [apply Qle_refl|].
    intros B HB _. exact HB.
  - unfold max. destruct (Fin 0 <? Fin u) eqn:E.
    + apply Qltb_lt in E. exists u. split; [reflexivity|].
      split; [apply Qlt_le_weak; exact E|].
      intros B _ HB. apply Qle_trans with c; assumption.
    + exists 0%Q. split; [reflexivity|]. split; [apply Qle_refl|].
      intros B HB _. exact HB.
Qed.

Lemma orElse_Fin_cases (a d : Q) :
  ~ (d == 0)%Q ->
  exists a1 : Q, orElse (Fin a) (Fin d) = Fin a1 /\ ~ (a1 == 0)%Q.
Proof.
  intro Hd. unfold orElse, truthy.
  destruct (Qeq_bool a 0) eqn:E; cbn [negb].
  - exists d. split; [reflexivity | exact Hd].
  - exists a. split; [reflexivity|]. apply Qeq_bool_false. exact E.
Qed.

Lemma hitMapping_Fin (W H PW PH : Q) :
  exists s a b : Q,
    hitMapping (mkWall (Fin W) (Fin H)) (Fin PW) (Fin PH) =
    mkMapping (Fin s) (Fin a) (Fin b).
Proof.
  unfold hitMapping, PAD, LABEL. cbn [w h].
  destruct (orElse_Fin_cases W 1) as [W1 [-> HW1]]; [discriminate|].
  destruct (orElse_Fin_cases H 1) as [H1 [-> HH1]]; [discriminate|].
  destruct (num0_Fin_eqv W) as [W0 [EW _]].
  destruct (num0_Fin_eqv H) as [H0 [EH _]].
  unfold num0, parseFloat in EW, EH. rewrite EW, EH.
  cbn [sub neg add mul].
  rewrite (div_Fin _ W1 HW1), (div_Fin _ H1 HH1).
  match goal with
  | |- context [min (Fin ?a) (Fin ?b)] =>
      destruct (min_Fin a b) as [s [Es _]]; rewrite !Es
  end.
  cbn [sub neg add mul]. rewrite !div_Fin by discriminate. cbn [add].
  eexists _, _, _. reflexivity.
Qed.

Lemma findOpening_updateFirst (t : nat) (f : Opening -> Opening)
    (ops : list Opening) (op : Opening) :
  (forall o, id (f o) = id o) ->
  findOpening t ops = Some op ->
  findOpening t (updateFirst t f ops) = Some (f op).
Proof.
  intros Hid. unfold findOpening.
  induction ops as [|o rest IH]; cbn [find updateFirst]; intro Hf.
  - discriminate Hf.
  - destruct (Nat.eqb (id o) t) eqn:E.
    + injection Hf as <-. cbn [find]. rewrite Hid, E. reflexivity.
    + cbn [find]. rewrite E. apply IH. exact Hf.
Qed.

(** A press on a canvas whose scale is not 0 records a finite offset, the
    one the move handler relies on. *)
Lemma mousedown_offset_finite
    (ws : list Wall) (ops : list Opening) (ds : DragState) (idx : nat)
    (W H PW PH mx my : Q) :
  wallAt ws idx = mkWall (Fin W) (Fin H) ->
  (forall op, In op ops -> finite (x op) /\ finite (y op)) ->
  finite (startX ds) /\ finite (startY ds) ->
  (scale (hitMapping (mkWall (Fin W) (Fin H)) (Fin PW) (Fin PH)) === Fin 0)
    = false ->
  finite (startX (mousedown ws ops ds idx (Fin PW) (Fin PH) (Fin mx) (Fin my)))
  /\
  finite (startY (mousedown ws ops ds idx (Fin PW) (Fin PH) (Fin mx) (Fin my))).
Proof.
  intros Hwall Hops Hds Hscale. unfold mousedown. rewrite Hwall.
  destruct (hitMapping_Fin W H PW PH) as [s [a [b Em]]].
  rewrite Em in Hscale |- *. cbn [scale seq] in Hscale.
  apply Qeq_bool_false in Hscale.
  match goal with
  | |- context [find ?f ?l] => destruct (find f l) as [op|] eqn:F
  end; [|exact Hds].
  apply find_some in F. destruct F as [Hin _].
  apply in_rev in Hin. apply filter_In in Hin. destruct Hin as [Hin _].
  destruct (Hops op Hin) as [Hx Hy].
  cbn [startX startY scale ox oy].
  destruct (x op) as [xq| | |]; try contradiction.
  destruct (y op) as [yq| | |]; try contradiction.
  cbn [mul add sub neg]. rewrite !(div_Fin _ s Hscale).
  split; exact I.
Qed.

(** C8, as stated, fails: a door of 2.10 m on a wall 2 m high is left at
    [y = 0] by the drag, above the bound [wallHeight - height = -0.1]. *)
Lemma drag_leaves_tall_door_outside :
  exists op' : Opening,
    findOpening 1
      (mousemove lowWall [tallDoor] draggingDoor (Some (Fin 400, Fin 280))
                 (Fin 200) (Fin 150)) = Some op' /\
    y op' = Fin 0 /\
    (y op' <=? h (wallAt lowWall 0) - height op') = false /\
    withinWall (wallAt lowWall 0) op' = false.
Proof.
  eexists. split; [vm_compute; reflexivity|].
  repeat split; vm_compute; reflexivity.
Qed.

(** On a canvas 80 pixels wide the scale is 0; a pointer on the origin
    then stores [NaN]: the clamp does not repair a position that is not a
    number. *)
Lemma drag_at_zero_scale_stores_NaN :
  option_map x
    (findOpening 1
       (mousemove [mkWall (Fin 4) (Fin 3)] [tallDoor] draggingDoor
                  (Some (Fin 80, Fin 280)) (Fin 40) (Fin 150))) = Some NaN.
Proof. vm_compute. reflexivity. Qed.

(** C8, amended. After a drag move event on a canvas whose scale is not 0,
    with finite wall and opening sizes and a finite drag offset, the
    position stored for the dragged opening satisfies
    [0 <= x <= max(0, wallWidth - width)] and
    [0 <= y <= max(0, wallHeight - height)]; when the opening fits the
    wall this is [0 <= x <= wallWidth - width] and
    [0 <= y <= wallHeight - height]. *)
Theorem drag_position_clamped
    (ws : list Wall) (ops : list Opening) (ds : DragState) (t : nat)
    (op : Opening) (W H ow oh sx sy PW PH mx my : Q) :
  isDragging ds = true ->
  targetId ds = Some t ->
  findOpening t ops = Some op ->
  wallAt ws (dragWallIndex ds) = mkWall (Fin W) (Fin H) ->
  width op = Fin ow -> height op = Fin oh ->
  startX ds = Fin sx -> startY ds = Fin sy ->
  (scale (hitMapping (mkWall (Fin W) (Fin H)) (Fin PW) (Fin PH)) === Fin 0)
    = false ->
  exists (op' : Opening) (x' y' : Q),
    findOpening t
      (mousemove ws ops ds (Some (Fin PW, Fin PH)) (Fin mx) (Fin my))
      = Some op' /\
    x op' = Fin x' /\ y op' = Fin y' /\
    (0 <= x')%Q /\ (x' <= Qmax 0 (W - ow))%Q /\
    (0 <= y')%Q /\ (y' <= Qmax 0 (H - oh))%Q /\
    ((ow <= W)%Q -> (x' <= W - ow)%Q) /\
    ((oh <= H)%Q -> (y' <= H - oh)%Q).
Proof.
  intros Hdrag Ht Hfind Hwall How Hoh Hsx Hsy Hscale.
  unfold mousemove. rewrite Hdrag, Ht, Hfind, Hwall. cbn [negb].
  destruct (hitMapping_Fin W H PW PH) as [s [a [b Em]]].
  rewrite Em in Hscale |- *. cbn [scale seq] in Hscale.
  apply Qeq_bool_false in Hscale.
  match goal with
  | |- context [updateFirst t ?f ops] =>
      rewrite (findOpening_updateFirst t f ops op (fun o => eq_refl) Hfind)
  end.
  unfold dragged. cbn [scale ox oy w h x y].
  rewrite How, Hoh, Hsx, Hsy.
  destruct (num0_Fin_eqv W) as [W0 [EW HW0]].
  destruct (num0_Fin_eqv H) as [H0 [EH HH0]].
  unfold num0, parseFloat in EW, EH. rewrite EW, EH.
  cbn [sub neg add]. rewrite !(div_Fin _ s Hscale). cbn [add].
  match goal with
  | |- context [max (Fin 0) (min ?v (Fin (W0 + - ow)))] =>
      destruct (clamp_facts v (W0 + - ow)) as [x' [Ex [Hx0 Hx1]]];
        [discriminate|]
  end.
  match goal with
  | |- context [max (Fin 0) (min ?v (Fin (H0 + - oh)))] =>
      destruct (clamp_facts v (H0 + - oh)) as [y' [Ey [Hy0 Hy1]]];
        [discriminate|]
  end.
  eexists _, x', y'. split; [reflexivity|]. cbn [x y].
  split; [exact Ex|]. split; [exact Ey|].
  split; [exact Hx0|]. split.
  { apply Hx1; [apply Q.le_max_l|].
    apply Qle_trans with (W - ow)%Q; [rewrite HW0; lra | apply Q.le_max_r]. }
  split; [exact Hy0|]. split.
  { apply Hy1; [apply Q.le_max_l|].
    apply Qle_trans with (H - oh)%Q; [rewrite HH0; lra | apply Q.le_max_r]. }
  split.
  - intro Hfit. apply Hx1; [lra | rewrite HW0; lra].
  - intro Hfit. apply Hy1; [lra | rewrite HH0; lra].
Qed.

Lemma drag_position_clamped_witness :
  exists (op' : Opening) (x' y' : Q),
    findOpening 1
      (mousemove lowWall [tallDoor] draggingDoor (Some (Fin 400, Fin 280))
                 (Fin 200) (Fin 150)) = Some op' /\
    x op' = Fin x' /\ y op' = Fin y' /\
    (0 <= x')%Q /\ (x' <= Qmax 0 (3 - 0.90))%Q /\
    (0 <= y')%Q /\ (y' <= Qmax 0 (2 - 2.10))%Q /\
    ((0.90 <= 3)%Q -> (x' <= 3 - 0.90)%Q) /\
    ((2.10 <= 2)%Q -> (y' <= 2 - 2.10)%Q).
Proof.
  exact (drag_position_clamped lowWall [tallDoor] draggingDoor 1 tallDoor
           3 2 0.90 2.10 0.1 0.1 400 280 200 150
           eq_refl eq_refl eq_refl eq_refl eq_refl eq_refl eq_refl eq_refl
           eq_refl).
Defined.





End AppFacts.

(* ================================================================== *)
(** ** Further facts about the tile estimator *)
(* ================================================================== *)

Module TileExtra.
Import TileLogic TileProps TileProps2 TileFacts.
Local Open Scope js_scope.

Lemma gt_num0 (v : num) : (num0 v >? Fin 0) = (v >? Fin 0).
Proof.
  destruct v as [q| | |]; try reflexivity.
  unfold num0, orElse, parseFloat, truthy.
  destruct (Qeq_bool q 0) eqn:E; cbn [negb]; [|reflexivity].
  apply Qeq_bool_iff in E. symmetry. apply gt_Fin_false.
  rewrite E. apply Qle_refl.
Qed.

Lemma counted_validWall (wl : Wall) : counted wl = App.validWall wl.
Proof. unfold counted, App.validWall. rewrite !gt_num0. reflexivity. Qed.

Lemma wallStep_skip (tL tW : num) (acc : num * num) (wl : Wall) :
  counted wl = false -> wallStep tL tW acc wl = acc.
Proof.
  intro H. unfold wallStep. destruct acc as [tb tg].
  unfold counted in H. rewrite H. reflexivity.
Qed.

Lemma wallsLoop_filter (tL tW : num) (ws : list Wall) (acc : num * num) :
  fold_left (wallStep tL tW) (filter counted ws) acc =
  fold_left (wallStep tL tW) ws acc.
Proof.
  revert acc. induction ws as [|wl rest IH]; intro acc; cbn [filter fold_left].
  - reflexivity.
  - destruct (counted wl) eqn:C.
    + cbn [fold_left]. apply IH.
    + rewrite (wallStep_skip _ _ _ _ C). apply IH.
Qed.

(** X1: wall rows without a positive width and height take no part in
    the estimate: [calculateAll] on the walls that pass the test of
    [gatherTileParams] returns what it returns on all walls. *)
Theorem walls_without_size_ignored (p : Params) :
  calculateAll (setWalls p (filter App.validWall (walls p))) = calculateAll p.
Proof.
  unfold calculateAll, tLenM_of, tWidM_of, waste_of, wallsLoop.
  cbn [setWalls walls openings tileLengthCm tileWidthCm wastePercent sqmPerBox].
  rewrite <- (filter_ext _ _ counted_validWall).
  rewrite wallsLoop_filter. reflexivity.
Qed.

(** With positive tile dimensions the loop keeps the count times the tile
    face at or above the gross area. *)
Lemma wallStep_covers (tL tW a b : Q) (s : Q * Q) :
  (0 < tL)%Q -> (0 < tW)%Q ->
  (0 <= a)%Q -> (0 <= b)%Q -> (b <= a * (tL * tW))%Q ->
  exists a' b' : Q,
    wallStep (Fin tL) (Fin tW) (Fin a, Fin b) (wallQ s) = (Fin a', Fin b') /\
    (0 <= a')%Q /\ (0 <= b')%Q /\ (b' <= a' * (tL * tW))%Q.
Proof.
  intros HtL HtW Ha Hb Hab. destruct s as [x y]. unfold wallStep, wallQ.
  cbn [w h fst snd].
  destruct (num0_Fin_eqv x) as [x' [Ex Hx]].
  destruct (num0_Fin_eqv y) as [y' [Ey Hy]].
  rewrite Ex, Ey.
  destruct (Fin x' >? Fin 0) eqn:Gx; destruct (Fin y' >? Fin 0) eqn:Gy;
    cbn [andb];
    try (exists a, b; split; [reflexivity | repeat split; assumption]).
  apply gt_Fin in Gx, Gy.
  destruct (wallTiles_finite tL tW x' y' HtL HtW Gx Gy) as [t [Et [Ht _]]].
  rewrite Et. exists (a + t)%Q, (b + x' * y')%Q.
  split; [reflexivity|].
  pose proof (Qdiv_pos _ _ Gx HtL) as Px. pose proof (Qdiv_pos _ _ Gy HtW) as Py.
  assert (Ex' : (x' / tL * tL == x')%Q) by (field; apply Qpos_neq0; exact HtL).
  assert (Ey' : (y' / tW * tW == y')%Q) by (field; apply Qpos_neq0; exact HtW).
  set (cx := (x' / tL)%Q) in *. set (cy := (y' / tW)%Q) in *.
  clearbody cx cy.
  assert (K0 : (0 <= cx * cy)%Q) by nra.
  assert (K1 : (0 <= t)%Q) by lra.
  assert (K2 : (0 < tL * tW)%Q) by nra.
  assert (K3 : (x' * y' == cx * cy * (tL * tW))%Q).
  { rewrite <- Ex', <- Ey'. ring. }
  assert (K4 : (cx * cy * (tL * tW) <= t * (tL * tW))%Q) by nra.
  repeat split; nra.
Qed.

Lemma wallsLoop_covers (tL tW : Q) (ws : list (Q * Q)) :
  (0 < tL)%Q -> (0 < tW)%Q ->
  forall a b : Q,
    (0 <= a)%Q -> (0 <= b)%Q -> (b <= a * (tL * tW))%Q ->
  exists a' b' : Q,
    fold_left (wallStep (Fin tL) (Fin tW)) (map wallQ ws) (Fin a, Fin b)
      = (Fin a', Fin b') /\
    (0 <= a')%Q /\ (0 <= b')%Q /\ (b' <= a' * (tL * tW))%Q.
Proof.
  intros HtL HtW. induction ws as [|s rest IH]; intros a b Ha Hb Hab;
    cbn [fold_left map].
  - exists a, b. repeat split; assumption.
  - destruct (wallStep_covers tL tW a b s HtL HtW Ha Hb Hab)
      as [a1 [b1 [E [H1 [H2 H3]]]]].
    rewrite E. apply IH; assumption.
Qed.


Lemma max0_Fin_spec (z : Q) :
  exists t : Q, max (Fin 0) (Fin z) = Fin t /\ (t == Qmax 0 z)%Q.
Proof.
  unfold max. destruct (Fin 0 <? Fin z) eqn:E.
  - exists z. split; [reflexivity|]. apply Qltb_lt in E.
    symmetry. apply Q.max_r. apply Qlt_le_weak. exact E.
  - exists 0%Q. split; [reflexivity|]. apply Qltb_ge in E.
    symmetry. apply Q.max_l. exact E.
Qed.


(** The result for finite inputs with positive tile dimensions. *)
Lemma calculateAll_finite (ws os : list (Q * Q)) (tl tw g : Q)
    (wp : option Q) (sb : Q) :
  (0 < tl)%Q -> (0 < tw)%Q ->
  exists G D T w' : Q,
    grossArea (calculateAll (paramsQ ws os tl tw g wp sb)) = Fin G /\
    totalDeduction (calculateAll (paramsQ ws os tl tw g wp sb)) = Fin D /\
    (D == sumAreasQ os)%Q /\
    netArea (calculateAll (paramsQ ws os tl tw g wp sb))
      = max (Fin 0) (Fin (G + - D)) /\
    totalBaseCount_of (paramsQ ws os tl tw g wp sb) = Fin T /\
    (0 <= T)%Q /\ (0 <= G)%Q /\
    ((0 <= D)%Q -> (G - D <= T * (tl / 100 * (tw / 100)))%Q) /\
    (w' == wasteQ wp)%Q /\
    baseCount (calculateAll (paramsQ ws os tl tw g wp sb))
      = Fin (inject_Z (Qceiling T)) /\
    finalCount (calculateAll (paramsQ ws os tl tw g wp sb))
      = Fin (inject_Z (Qceiling (T * (1 + w' / 100)))) /\
    purchaseArea (calculateAll (paramsQ ws os tl tw g wp sb))
      = Fin (inject_Z (Qceiling (T * (1 + w' / 100)))
             * (tl / 100 * (tw / 100))).
Proof.
  intros Hl Hw.
  set (p := paramsQ ws os tl tw g wp sb).
  destruct (calculateAll_eq p) as [Eb E]. rewrite E.
  cbn [grossArea totalDeduction netArea baseCount finalCount purchaseArea].
  assert (Ew : exists w', waste_of p = Fin w' /\ (w' == wasteQ wp)%Q).
  { unfold waste_of, p. cbn [paramsQ wastePercent].
    destruct wp as [x|]; cbn [option_map wasteQ].
    - apply num0_Fin_eqv.
    - exists 0%Q. split; reflexivity. }
  destruct Ew as [w' [Ew Hw']]. rewrite Ew.
  rewrite Eb. clear Eb E.
  unfold tLenM_of, tWidM_of, wallsLoop, calcTotalDeduction.
  unfold p. cbn [paramsQ walls openings tileLengthCm tileWidthCm].
  destruct (tileM_pos tl Hl) as [-> HL]. destruct (tileM_pos tw Hw) as [-> HW].
  assert (H00 : (0 <= 0 * (tl / 100 * (tw / 100)))%Q) by lra.
  destruct (wallsLoop_covers _ _ ws HL HW 0 0 (Qle_refl 0) (Qle_refl 0) H00)
    as [a [b [-> [Ha [Hb Hab]]]]].
  destruct (deduction_finite os 0) as [d [-> Hd]].
  cbn [fst snd].
  assert (HA : (0 < tl / 100 * (tw / 100))%Q) by nra.
  set (A := (tl / 100 * (tw / 100))%Q) in *.
  assert (ET : exists T : Q,
             deductedBase (Fin (tl / 100)) (Fin (tw / 100)) (Fin a) (Fin b) (Fin d)
               = Fin T /\ (0 <= T)%Q /\
             ((0 <= d)%Q -> (b - d <= T * A)%Q)).
  { unfold deductedBase.
    destruct ((Fin b >? Fin 0) && (Fin d >? Fin 0))%bool.
    - cbn [mul]. fold A. rewrite (div_Fin _ _ (Qpos_neq0 _ HA)).
      cbn [sub neg add].
      destruct (max0_Fin_spec (a + - (d / A))) as [T [-> HT]].
      exists T. split; [reflexivity|].
      pose proof (Q.le_max_l 0 (a + - (d / A))) as M0.
      pose proof (Q.le_max_r 0 (a + - (d / A))) as M1.
      rewrite <- HT in M0, M1.
      split; [exact M0|]. intros _.
      assert (Ed : (d / A * A == d)%Q) by (field; apply Qpos_neq0; exact HA).
      set (x := (d / A)%Q) in *. clearbody x A. nra.
    - exists a. split; [reflexivity|]. split; [exact Ha|]. intro.
      clearbody A. nra. }
  destruct ET as [T [-> [HT0 HTc]]].
  exists b, d, T, w'.
  rewrite div_Fin by discriminate. cbn [add mul ceil sub neg].
  repeat split; try assumption; try reflexivity.
  rewrite Hd. ring.
Qed.

Lemma wasteTiles_difference (p : Params) :
  wasteTiles (calculateAll p) =
  finalCount (calculateAll p) - baseCount (calculateAll p).
Proof. destruct (calculateAll_eq p) as [_ ->]. reflexivity. Qed.

Lemma boxCount_eq (p : Params) :
  boxCount (calculateAll p) =
  if num0 (sqmPerBox p) >? Fin 0
  then ceil (purchaseArea (calculateAll p) / num0 (sqmPerBox p))
  else Fin 0.
Proof. destruct (calculateAll_eq p) as [_ ->]. reflexivity. Qed.



(** X3: with positive tile dimensions and a waste percent that is not
    negative, [baseCount] and [finalCount] are whole numbers with
    [0 <= baseCount <= finalCount], and [wasteTiles] is their difference. *)
Theorem tile_counts_whole (ws os : list (Q * Q)) (tl tw g : Q)
    (wp : option Q) (sb : Q) :
  (0 < tl)%Q -> (0 < tw)%Q -> (0 <= wasteQ wp)%Q ->
  exists b f : Z,
    baseCount (calculateAll (paramsQ ws os tl tw g wp sb)) = Fin (inject_Z b) /\
    finalCount (calculateAll (paramsQ ws os tl tw g wp sb)) = Fin (inject_Z f) /\
    (0 <= b <= f)%Z /\
    wasteTiles (calculateAll (paramsQ ws os tl tw g wp sb))
      ~= Fin (inject_Z (f - b)).
Proof.
  intros Hl Hw Hwp.
  destruct (calculateAll_finite ws os tl tw g wp sb Hl Hw)
    as [G [D [T [w' [_ [_ [_ [_ [_ [HT [_ [_ [Hw' [EB [EF _]]]]]]]]]]]]]]].
  exists (Qceiling T), (Qceiling (T * (1 + w' / 100))).
  split; [exact EB|]. split; [exact EF|].
  assert (Hw100 : (0 <= w' / 100)%Q).
  { apply Qle_shift_div_l; [reflexivity|]. rewrite Hw'. lra. }
  split; [split|].
  - change 0%Z with (Qceiling 0). apply Qceiling_resp_le. exact HT.
  - apply Qceiling_resp_le. nra.
  - rewrite wasteTiles_difference, EB, EF. cbn [sub neg add eqv].
    unfold Z.sub. rewrite inject_Z_plus, inject_Z_opp. reflexivity.
Qed.

Lemma tile_counts_whole_witness :
  exists b f : Z,
    baseCount (calculateAll roomWithDoor) = Fin (inject_Z b) /\
    finalCount (calculateAll roomWithDoor) = Fin (inject_Z f) /\
    (0 <= b <= f)%Z /\
    wasteTiles (calculateAll roomWithDoor) ~= Fin (inject_Z (f - b)).
Proof.
  apply (tile_counts_whole
           [(3, 2.5); (3, 2.5)] [(0.9, 2.1)] 60 30 3 (Some 10%Q) 1.44);
    [reflexivity | reflexivity | discriminate].
Defined.

(** X4: with positive tile dimensions a larger waste percent never gives
    a smaller [finalCount], and leaves [baseCount] and [netArea] as they
    are. *)
Theorem final_count_monotone_in_waste (ws os : list (Q * Q))
    (tl tw g w1 w2 sb : Q) :
  (0 < tl)%Q -> (0 < tw)%Q -> (w1 <= w2)%Q ->
  (finalCount (calculateAll (paramsQ ws os tl tw g (Some w1) sb)) <=?
   finalCount (calculateAll (paramsQ ws os tl tw g (Some w2) sb))) = true /\
  baseCount (calculateAll (paramsQ ws os tl tw g (Some w1) sb)) =
  baseCount (calculateAll (paramsQ ws os tl tw g (Some w2) sb)) /\
  netArea (calculateAll (paramsQ ws os tl tw g (Some w1) sb)) =
  netArea (calculateAll (paramsQ ws os tl tw g (Some w2) sb)).
Proof.
  intros Hl Hw H12.
  destruct (calculateAll_finite ws os tl tw g (Some w1) sb Hl Hw)
    as [G1 [D1 [T1 [u1 [_ [_ [_ [_ [ET1 [HT1 [_ [_ [Hu1 [_ [EF1 _]]]]]]]]]]]]]]].
  destruct (calculateAll_finite ws os tl tw g (Some w2) sb Hl Hw)
    as [G2 [D2 [T2 [u2 [_ [_ [_ [_ [ET2 [_ [_ [_ [Hu2 [_ [EF2 _]]]]]]]]]]]]]]].
  assert (ET : Fin T1 = Fin T2) by (rewrite <- ET1, <- ET2; reflexivity).
  injection ET as <-.
  split; [|split].
  2,3: destruct (calculateAll_eq (paramsQ ws os tl tw g (Some w1) sb)) as [_ ->];
       destruct (calculateAll_eq (paramsQ ws os tl tw g (Some w2) sb)) as [_ ->];
       reflexivity.
  rewrite EF1, EF2. apply le_Fin. rewrite <- Zle_Qle. apply Qceiling_resp_le.
  cbn [wasteQ] in Hu1, Hu2.
  assert (Hd : (u1 / 100 <= u2 / 100)%Q).
  { apply Qle_shift_div_l; [reflexivity|].
    assert (E : (u1 / 100 * 100 == u1)%Q) by field.
    rewrite E, Hu1, Hu2. exact H12. }
  nra.
Qed.

Lemma final_count_monotone_in_waste_witness :
  (finalCount (calculateAll roomWithDoor) <=?
   finalCount (calculateAll roomWithDoor15)) = true /\
  baseCount (calculateAll roomWithDoor) =
  baseCount (calculateAll roomWithDoor15) /\
  netArea (calculateAll roomWithDoor) = netArea (calculateAll roomWithDoor15).
Proof.
  apply (final_count_monotone_in_waste
           [(3, 2.5); (3, 2.5)] [(0.9, 2.1)] 60 30 3 10 15 1.44);
    [reflexivity | reflexivity | discriminate].
Defined.



Lemma wallsLoop_nothing (tL tW : num) (ws : list Wall) (acc : num * num) :
  noWallCounted ws -> fold_left (wallStep tL tW) ws acc = acc.
Proof.
  induction ws as [|wl rest IH]; intro H; cbn [fold_left].
  - reflexivity.
  - rewrite wallStep_skip.
    + apply IH. intros w0 Hin. apply H. right. exact Hin.
    + rewrite counted_validWall. apply H. left. reflexivity.
Qed.

Lemma ceil_of_zero (q : Q) : (q == 0)%Q -> ceil (Fin q) = Fin 0.
Proof.
  intro E. cbn [ceil]. rewrite (Qceiling_comp _ _ E). reflexivity.
Qed.

(** X6: when no wall has a positive width and height, the gross area and
    every count are 0, whatever the openings and the finite tile
    dimensions and waste. *)
Theorem no_counted_wall_gives_zero (p : Params) (tl tw wv : Q) :
  tileLengthCm p = Fin tl -> tileWidthCm p = Fin tw ->
  waste_of p = Fin wv ->
  noWallCounted (walls p) ->
  grossArea (calculateAll p) = Fin 0 /\
  baseCount (calculateAll p) = Fin 0 /\
  finalCount (calculateAll p) = Fin 0 /\
  purchaseArea (calculateAll p) ~= Fin 0 /\
  boxCount (calculateAll p) = Fin 0 /\
  wasteTiles (calculateAll p) = Fin 0.
Proof.
  intros El Ew Ev Hno.
  assert (EF : finalCount (calculateAll p) = Fin 0 /\
               baseCount (calculateAll p) = Fin 0 /\
               grossArea (calculateAll p) = Fin 0 /\
               exists P, purchaseArea (calculateAll p) = Fin P /\ (P == 0)%Q).
  { destruct (calculateAll_eq p) as [Eb E]. rewrite E.
    cbn [grossArea baseCount finalCount purchaseArea].
    unfold wallsLoop in *. rewrite (wallsLoop_nothing _ _ _ _ Hno) in *.
    cbn [fst snd] in *. unfold deductedBase in Eb.
    change (Fin 0 >? Fin 0) with false in Eb. cbn [andb] in Eb.
    rewrite Eb, Ev. rewrite div_Fin by discriminate. cbn [add mul].
    assert (Z0 : ceil (Fin (0 * (1 + wv / 100))) = Fin 0)
      by (apply ceil_of_zero; ring).
    rewrite Z0. split; [reflexivity|]. split; [reflexivity|].
    split; [reflexivity|].
    unfold tLenM_of, tWidM_of. rewrite El, Ew.
    destruct (num0_Fin_eqv tl) as [tl' [-> _]].
    destruct (num0_Fin_eqv tw) as [tw' [-> _]].
    rewrite !div_Fin by discriminate. cbn [mul].
    eexists. split; [reflexivity|]. ring. }
  destruct EF as [E1 [E2 [E3 [P [E4 HP]]]]].
  split; [exact E3|]. split; [exact E2|]. split; [exact E1|].
  split; [rewrite E4; exact HP|]. split.
  - rewrite boxCount_eq, E4.
    destruct (num0 (sqmPerBox p)) as [s| | |] eqn:Es; try reflexivity.
    destruct (Fin s >? Fin 0) eqn:G; [|reflexivity].
    apply gt_Fin in G. rewrite (div_Fin _ _ (Qpos_neq0 _ G)).
    apply ceil_of_zero. rewrite HP. field. apply Qpos_neq0. exact G.
  - rewrite wasteTiles_difference, E1, E2. reflexivity.
Qed.

Lemma no_counted_wall_gives_zero_witness :
  grossArea (calculateAll noWidth) = Fin 0 /\
  baseCount (calculateAll noWidth) = Fin 0 /\
  finalCount (calculateAll noWidth) = Fin 0 /\
  purchaseArea (calculateAll noWidth) ~= Fin 0 /\
  boxCount (calculateAll noWidth) = Fin 0 /\
  wasteTiles (calculateAll noWidth) = Fin 0.
Proof.
  apply (no_counted_wall_gives_zero noWidth 60 30 10);
    [reflexivity | reflexivity | reflexivity
    | intros wl [<- | []]; reflexivity].
Defined.
End TileExtra.

(* ================================================================== *)
(** ** Further facts about the wallpaper estimator *)
(* ================================================================== *)

Module WallpaperExtra.
Import WallpaperLogic WallpaperSpec WallpaperProps WallpaperProps2 WallpaperFacts.
Local Open Scope js_scope.

Lemma ceil_tight (a b : Q) :
  (0 < b)%Q ->
  (a <= inject_Z (Qceiling (a / b)) * b)%Q /\
  (inject_Z (Qceiling (a / b) - 1) * b < a)%Q.
Proof.
  intro Hb.
  pose proof (Qle_ceiling (a / b)) as H1.
  pose proof (Qceiling_lt (a / b)) as H2.
  pose proof (Qdiv_mult_cancel a b Hb) as E.
  set (d := (a / b)%Q) in *.
  set (n1 := inject_Z (Qceiling d)) in *.
  set (n0 := inject_Z (Qceiling d - 1)) in *.
  clearbody d n1 n0. split; nra.
Qed.


Lemma totalStrips_eq (p : Params) :
  totalStrips (calcWallpaperAll p) =
  if num0 (rollWidthM p) >? Fin 0
  then ceil (num0 (wallWidthM p) / num0 (rollWidthM p)) else Fin 0.
Proof. reflexivity. Qed.

Lemma totalRolls_eq (p : Params) :
  totalRolls (calcWallpaperAll p) =
  if stripsPerRoll (calcWallpaperAll p) >? Fin 0
  then ceil (totalStrips (calcWallpaperAll p) / stripsPerRoll (calcWallpaperAll p))
  else Fin 0.
Proof. reflexivity. Qed.

Lemma stripsPerRoll_eq (p : Params) :
  stripsPerRoll (calcWallpaperAll p) =
  if effectiveStripHeight (calcWallpaperAll p) >? Fin 0
  then floor (num0 (rollLengthM p) / effectiveStripHeight (calcWallpaperAll p))
  else Fin 0.
Proof.
  rewrite calcWallpaperAll_guarded. reflexivity.
Qed.

Lemma effectiveHeight_positive (p : Params) (wh pr : Q) :
  wallHeightM p = Fin wh -> patternRepeatCm p = Fin pr -> (0 < wh)%Q ->
  exists e : Q,
    effectiveStripHeight (calcWallpaperAll p) = Fin e /\
    (e == wh + reserveQ pr)%Q.
Proof.
  intros Eh Ep Hh. rewrite calcWallpaperAll_guarded.
  unfold guardedChain, chain, guardedEffectiveStripHeight.
  cbn [effectiveStripHeight]. rewrite Eh, Ep.
  rewrite (num0_Fin_pos _ Hh).
  assert (L : (Fin wh <=? Fin 0) = false) by (apply le_Fin_false; exact Hh).
  rewrite L, TileExtra.gt_num0. unfold reserveQ.
  change (Fin pr >? Fin 0) with (Qltb 0 pr).
  destruct (Qltb 0 pr).
  - eexists. split; reflexivity.
  - exists wh. split; [reflexivity|]. ring.
Qed.



Lemma stripsPerRoll_finite (p : Params) (wh rl pr : Q) :
  wallHeightM p = Fin wh -> rollLengthM p = Fin rl ->
  patternRepeatCm p = Fin pr -> (0 < wh)%Q ->
  exists e rl' : Q,
    (e == wh + reserveQ pr)%Q /\ (rl' == rl)%Q /\ (0 < e)%Q /\
    effectiveStripHeight (calcWallpaperAll p) = Fin e /\
    stripsPerRoll (calcWallpaperAll p) = Fin (inject_Z (Qfloor (rl' / e))).
Proof.
  intros Eh El Ep Hh.
  destruct (effectiveHeight_positive p wh pr Eh Ep Hh) as [e [Ee He]].
  rewrite stripsPerRoll_eq, Ee, El.
  destruct (num0_Fin_eqv rl) as [rl' [-> Hrl]].
  assert (Hr : (0 <= reserveQ pr)%Q).
  { unfold reserveQ. destruct (Qltb 0 pr); discriminate. }
  assert (Hpos : (0 < e)%Q) by (rewrite He; lra).
  assert (G : (Fin e >? Fin 0) = true) by (apply gt_Fin; exact Hpos).
  rewrite G, (div_Fin _ _ (Qpos_neq0 _ Hpos)). cbn [floor].
  exists e, rl'. repeat split; try assumption; reflexivity.
Qed.



(** X9: when a roll gives at least one strip, [totalRolls] is the least
    whole number of rolls that give [totalStrips] strips; when a roll gives
    no strip, [totalRolls] is 0. *)
Theorem rolls_least_cover :
  (forall (p : Params) (S k : Q),
      totalStrips (calcWallpaperAll p) = Fin S ->
      stripsPerRoll (calcWallpaperAll p) = Fin k -> (0 < k)%Q ->
      exists n : Z,
        totalRolls (calcWallpaperAll p) = Fin (inject_Z n) /\
        (S <= inject_Z n * k)%Q /\ (inject_Z (n - 1) * k < S)%Q) /\
  (forall p : Params,
      (stripsPerRoll (calcWallpaperAll p) >? Fin 0) = false ->
      totalRolls (calcWallpaperAll p) = Fin 0).
Proof.
  split.
  - intros p S k ES Ek Hk. rewrite totalRolls_eq, ES, Ek.
    assert (G : (Fin k >? Fin 0) = true) by (apply gt_Fin; exact Hk).
    rewrite G, (div_Fin _ _ (Qpos_neq0 _ Hk)). cbn [ceil].
    exists (Qceiling (S / k)). split; [reflexivity|].
    apply ceil_tight. exact Hk.
  - intros p H. rewrite totalRolls_eq, H. reflexivity.
Qed.

Lemma rolls_least_cover_witness :
  exists n : Z,
    totalRolls (calcWallpaperAll scenario) = Fin (inject_Z n) /\
    (inject_Z 8 <= inject_Z n * inject_Z 3)%Q /\
    (inject_Z (n - 1) * inject_Z 3 < inject_Z 8)%Q.
Proof.
  exact (proj1 rolls_least_cover scenario (inject_Z 8) (inject_Z 3)
           eq_refl eq_refl eq_refl).
Defined.

Lemma floor_of_unit_interval (q : Q) :
  (0 <= q)%Q -> (q < 1)%Q -> Qfloor q = 0%Z.
Proof.
  intros H0 H1.
  pose proof (Qfloor_le q) as Hf. pose proof (Qlt_floor q) as Hl.
  assert (A : (Qfloor q < 1)%Z).
  { rewrite Zlt_Qlt. apply Qle_lt_trans with q; assumption. }
  assert (B : (0 < Qfloor q + 1)%Z).
  { rewrite Zlt_Qlt. apply Qle_lt_trans with q; assumption. }
  lia.
Qed.

(** X10: a roll shorter than one strip gives no strip: then
    [stripsPerRoll], [totalRolls], the purchased area, the waste percent
    and the price are all 0, although the wall needs covering. *)
Theorem roll_shorter_than_strip (ww wh rw rl pr price : Q) :
  (0 < wh)%Q -> (0 <= rl)%Q -> (rl < wh + reserveQ pr)%Q ->
  stripsPerRoll (calcWallpaperAll (paramsQ ww wh rw rl pr price)) = Fin 0 /\
  totalRolls (calcWallpaperAll (paramsQ ww wh rw rl pr price)) = Fin 0 /\
  totalPurchasedArea (calcWallpaperAll (paramsQ ww wh rw rl pr price))
    ~= Fin 0 /\
  wastePercent (calcWallpaperAll (paramsQ ww wh rw rl pr price)) = Fin 0 /\
  totalPrice (calcWallpaperAll (paramsQ ww wh rw rl pr price)) ~= Fin 0.
Proof.
  intros Hh Hl Hshort.
  set (p := paramsQ ww wh rw rl pr price).
  destruct (stripsPerRoll_finite p wh rl pr eq_refl eq_refl eq_refl Hh)
    as [e [rl' [He [Hrl [Hpos [_ Es]]]]]].
  assert (Ek : stripsPerRoll (calcWallpaperAll p) = Fin 0).
  { rewrite Es. rewrite floor_of_unit_interval; [reflexivity| |].
    - apply Qdiv_nonneg; [rewrite Hrl; exact Hl | exact Hpos].
    - apply Qlt_shift_div_r; [exact Hpos|]. rewrite Hrl, He. lra. }
  assert (Er : totalRolls (calcWallpaperAll p) = Fin 0)
    by (rewrite totalRolls_eq, Ek; reflexivity).
  split; [exact Ek|]. split; [exact Er|].
  assert (EP : exists P, totalPurchasedArea (calcWallpaperAll p) = Fin P /\
                         (P == 0)%Q).
  { change (totalPurchasedArea (calcWallpaperAll p))
      with (totalRolls (calcWallpaperAll p)
            * (num0 (rollWidthM p) * num0 (rollLengthM p))).
    rewrite Er. unfold p. cbn [paramsQ rollWidthM rollLengthM].
    destruct (num0_Fin_eqv rw) as [rw' [-> _]].
    destruct (num0_Fin_eqv rl) as [rl2 [-> _]].
    cbn [mul]. eexists. split; [reflexivity|]. ring. }
  destruct EP as [P [EP HP]].
  split; [rewrite EP; exact HP|]. split.
  - change (wastePercent (calcWallpaperAll p))
      with (if totalPurchasedArea (calcWallpaperAll p) >? Fin 0
            then (totalPurchasedArea (calcWallpaperAll p)
                  - wallArea (calcWallpaperAll p))
                 / totalPurchasedArea (calcWallpaperAll p) * Fin 100
            else Fin 0).
    rewrite EP.
    assert (G : (Fin P >? Fin 0) = false).
    { apply gt_Fin_false. rewrite HP. apply Qle_refl. }
    rewrite G. reflexivity.
  - change (totalPrice (calcWallpaperAll p))
      with (totalRolls (calcWallpaperAll p) * orElse (rollPrice p) (Fin 0)).
    rewrite Er. unfold p. cbn [paramsQ rollPrice].
    destruct (num0_Fin_eqv price) as [pr' [Epr _]].
    unfold num0, parseFloat in Epr. rewrite Epr. cbn [mul eqv]. ring.
Qed.

Lemma roll_shorter_than_strip_witness :
  stripsPerRoll (calcWallpaperAll (paramsQ 4 2.7 0.53 2 0 25)) = Fin 0 /\
  totalRolls (calcWallpaperAll (paramsQ 4 2.7 0.53 2 0 25)) = Fin 0 /\
  totalPurchasedArea (calcWallpaperAll (paramsQ 4 2.7 0.53 2 0 25))
    ~= Fin 0 /\
  wastePercent (calcWallpaperAll (paramsQ 4 2.7 0.53 2 0 25)) = Fin 0 /\
  totalPrice (calcWallpaperAll (paramsQ 4 2.7 0.53 2 0 25)) ~= Fin 0.
Proof.
  apply (roll_shorter_than_strip 4 2.7 0.53 2 0 25);
    [reflexivity | discriminate | reflexivity].
Defined.

(** X11: only the presence of a pattern repeat counts, not its size: two
    positive repeats give the same result. *)
Theorem pattern_repeat_size_ignored (p : Params) (a b : Q) :
  (0 < a)%Q -> (0 < b)%Q ->
  calcWallpaperAll (setPattern p (Fin a)) =
  calcWallpaperAll (setPattern p (Fin b)).
Proof.
  intros Ha Hb. unfold calcWallpaperAll, calcEffectiveStripHeight.
  cbn [setPattern wallWidthM wallHeightM rollWidthM rollLengthM
       patternRepeatCm rollPrice].
  rewrite !num0_idem, (num0_Fin_pos _ Ha), (num0_Fin_pos _ Hb).
  assert (Ga : (Fin a >? Fin 0) = true) by (apply gt_Fin; exact Ha).
  assert (Gb : (Fin b >? Fin 0) = true) by (apply gt_Fin; exact Hb).
  rewrite Ga, Gb. reflexivity.
Qed.

Lemma pattern_repeat_size_ignored_witness :
  calcWallpaperAll (setPattern scenario (Fin 32)) =
  calcWallpaperAll (setPattern scenario (Fin 64)).
Proof.
  exact (pattern_repeat_size_ignored scenario 32 64 eq_refl eq_refl).
Defined.

Lemma reserveQ_zero : reserveQ 0 = 0%Q.
Proof. reflexivity. Qed.

Lemma reserveQ_pos (pr : Q) : (0 < pr)%Q -> reserveQ pr = 0.80%Q.
Proof.
  intro H. unfold reserveQ. apply Qltb_lt in H. rewrite H. reflexivity.
Qed.

(** X12: a pattern repeat never raises the strips per roll, and never
    lowers the number of rolls as long as a roll still gives a strip. *)
Theorem pattern_repeat_costs_rolls (ww wh rw rl pr price : Q) :
  (0 <= ww)%Q -> (0 < wh)%Q -> (0 <= rl)%Q -> (0 < pr)%Q ->
  (stripsPerRoll (calcWallpaperAll (paramsQ ww wh rw rl pr price)) <=?
   stripsPerRoll (calcWallpaperAll (paramsQ ww wh rw rl 0 price))) = true /\
  ((stripsPerRoll (calcWallpaperAll (paramsQ ww wh rw rl pr price)) >? Fin 0)
     = true ->
   (totalRolls (calcWallpaperAll (paramsQ ww wh rw rl 0 price)) <=?
    totalRolls (calcWallpaperAll (paramsQ ww wh rw rl pr price))) = true).
Proof.
  intros Hww Hh Hl Hpr.
  set (p1 := paramsQ ww wh rw rl pr price).
  set (p0 := paramsQ ww wh rw rl 0 price).
  destruct (stripsPerRoll_finite p1 wh rl pr eq_refl eq_refl eq_refl Hh)
    as [e1 [l1 [He1 [Hl1 [Hp1 [_ Es1]]]]]].
  destruct (stripsPerRoll_finite p0 wh rl 0 eq_refl eq_refl eq_refl Hh)
    as [e0 [l0 [He0 [Hl0 [Hp0 [_ Es0]]]]]].
  rewrite (reserveQ_pos _ Hpr) in He1. rewrite reserveQ_zero in He0.
  assert (Hq : (l1 / e1 <= l0 / e0)%Q).
  { apply Qle_shift_div_l; [exact Hp0|].
    assert (E1 : (l1 / e1 * e1 == l1)%Q) by (field; apply Qpos_neq0; exact Hp1).
    assert (D1 : (0 <= l1 / e1)%Q).
    { apply Qdiv_nonneg; [rewrite Hl1; exact Hl | exact Hp1]. }
    set (d := (l1 / e1)%Q) in *. clearbody d.
    rewrite Hl0, <- Hl1, <- E1. nra. }
  assert (Hk : (Qfloor (l1 / e1) <= Qfloor (l0 / e0))%Z)
    by (apply Qfloor_resp_le; exact Hq).
  split.
  - rewrite Es1, Es0. apply le_Fin. rewrite <- Zle_Qle. exact Hk.
  - intro Hpos. rewrite Es1 in Hpos. apply gt_Fin in Hpos.
    assert (K0 : (inject_Z (Qfloor (l1 / e1)) <= inject_Z (Qfloor (l0 / e0)))%Q)
      by (rewrite <- Zle_Qle; exact Hk).
    set (k1 := inject_Z (Qfloor (l1 / e1))) in *.
    set (k0 := inject_Z (Qfloor (l0 / e0))) in *.
    assert (Hpos0 : (0 < k0)%Q) by lra.
    assert (ES : totalStrips (calcWallpaperAll p0)
                 = totalStrips (calcWallpaperAll p1)) by reflexivity.
    assert (HS : exists S : Q,
               totalStrips (calcWallpaperAll p1) = Fin S /\ (0 <= S)%Q).
    { rewrite totalStrips_eq. unfold p1.
      cbn [paramsQ wallWidthM rollWidthM].
      destruct (num0_Fin_eqv ww) as [ww' [-> Hw']].
      destruct (num0_Fin_eqv rw) as [rw' [-> _]].
      destruct (totalStrips_facts ww' rw' (nonneg_eqv _ _ Hw' Hww))
        as [S [E [HS0 _]]].
      exists S. split; [exact E | exact HS0]. }
    destruct HS as [S [ES1 HS0]].
    rewrite (totalRolls_eq p0), (totalRolls_eq p1), ES, ES1, Es0, Es1.
    fold k0 k1.
    assert (G1 : (Fin k1 >? Fin 0) = true) by (apply gt_Fin; exact Hpos).
    assert (G0 : (Fin k0 >? Fin 0) = true) by (apply gt_Fin; exact Hpos0).
    rewrite G1, G0.
    rewrite (div_Fin _ _ (Qpos_neq0 _ Hpos)), (div_Fin _ _ (Qpos_neq0 _ Hpos0)).
    cbn [ceil]. apply le_Fin. rewrite <- Zle_Qle. apply Qceiling_resp_le.
    apply Qle_shift_div_l; [exact Hpos|].
    assert (E0 : (S / k0 * k0 == S)%Q) by (field; apply Qpos_neq0; exact Hpos0).
    assert (D0 : (0 <= S / k0)%Q) by (apply Qdiv_nonneg; assumption).
    clearbody k0 k1.
    set (d := (S / k0)%Q) in *. clearbody d. nra.
Qed.

Lemma pattern_repeat_costs_rolls_witness :
  (stripsPerRoll (calcWallpaperAll (paramsQ 4 2.7 0.53 10.05 64 25)) <=?
   stripsPerRoll (calcWallpaperAll (paramsQ 4 2.7 0.53 10.05 0 25))) = true /\
  ((stripsPerRoll (calcWallpaperAll (paramsQ 4 2.7 0.53 10.05 64 25))
      >? Fin 0) = true ->
   (totalRolls (calcWallpaperAll (paramsQ 4 2.7 0.53 10.05 0 25)) <=?
    totalRolls (calcWallpaperAll (paramsQ 4 2.7 0.53 10.05 64 25))) = true).
Proof.
  apply (pattern_repeat_costs_rolls 4 2.7 0.53 10.05 64 25);
    [discriminate | reflexivity | discriminate | reflexivity].
Defined.
End WallpaperExtra.

(* ================================================================== *)
(** ** The wallpaper run, its display and its preview *)
(* ================================================================== *)

Module WallpaperAppFacts.
Import WallpaperLogic WallpaperProps WallpaperProps2 WallpaperFacts WallpaperApp.
Local Open Scope js_scope.

(** X13: the area shown beside the wallpaper inputs is the [wallArea] of
    the estimate, in both modes: perimeter times height in perimeter mode,
    wall width times height otherwise. *)
Theorem wallpaper_area_display_agrees (dom : WpDom) (a hh rl rw : Q) :
  wpWallWidth dom = Fin a -> wpWallHeight dom = Fin hh ->
  wpRoomLength dom = Fin rl -> wpRoomWidth dom = Fin rw ->
  updateWallpaperAreaDisplay dom ~= wallArea (runWallpaperCalculation dom) /\
  (wpPerimeterMode dom = true ->
   wallArea (runWallpaperCalculation dom) ~= Fin ((rl + rw) * 2 * hh)) /\
  (wpPerimeterMode dom = false ->
   wallArea (runWallpaperCalculation dom) ~= Fin (a * hh)).
Proof.
  intros Ea Eh El Er.
  unfold updateWallpaperAreaDisplay, runWallpaperCalculation, calcWallpaperAll.
  cbn [wallArea]. unfold calcWallArea, runParams, finalWidth, App.getNum.
  cbn [wallWidthM wallHeightM].
  rewrite Ea, Eh, El, Er, !num0_idem.
  destruct (num0_Fin_eqv a) as [a' [-> Ha]].
  destruct (num0_Fin_eqv hh) as [h' [-> Hh]].
  destruct (num0_Fin_eqv rl) as [l' [-> Hl]].
  destruct (num0_Fin_eqv rw) as [w' [-> Hw]].
  destruct (wpPerimeterMode dom); cbn [add mul].
  - destruct (num0_Fin_eqv ((l' + w') * 2)) as [x [-> Hx]].
    cbn [mul eqv]. split; [nra|].
    split; [intros _; nra | discriminate].
  - destruct (num0_Fin_eqv a') as [a2 [-> Ha2]].
    cbn [mul eqv]. split; [nra|].
    split; [discriminate | intros _; nra].
Qed.

Lemma wallpaper_area_display_agrees_witness :
  updateWallpaperAreaDisplay samplePage
    ~= wallArea (runWallpaperCalculation samplePage) /\
  (wpPerimeterMode samplePage = true ->
   wallArea (runWallpaperCalculation samplePage)
     ~= Fin ((5 + 4) * 2 * 2.7)) /\
  (wpPerimeterMode samplePage = false ->
   wallArea (runWallpaperCalculation samplePage) ~= Fin (4 * 2.7)).
Proof.
  exact (wallpaper_area_display_agrees samplePage 4 2.7 5 4
           eq_refl eq_refl eq_refl eq_refl).
Defined.




End WallpaperAppFacts.

Module AppExtra.
Import TileLogic TileProps TileFacts App AppProps AppFacts AppState AppProps2.
Local Open Scope js_scope.

Lemma updateFirst_ids (t : nat) (f : Opening -> Opening) (ops : list Opening) :
  (forall o, id (f o) = id o) ->
  map id (updateFirst t f ops) = map id ops.
Proof.
  intro Hf. induction ops as [|o rest IH]; cbn [updateFirst map].
  - reflexivity.
  - destruct (Nat.eqb (id o) t); cbn [map].
    + rewrite Hf. reflexivity.
    + rewrite IH. reflexivity.
Qed.

Lemma updateFirst_Forall2 (t : nat) (f : Opening -> Opening)
    (ops : list Opening) :
  Forall2 (fun o o' => o' = o \/ (id o = t /\ o' = f o))
          ops (updateFirst t f ops).
Proof.
  induction ops as [|o rest IH]; cbn [updateFirst].
  - constructor.
  - destruct (Nat.eqb (id o) t) eqn:E.
    + constructor.
      * right. apply Nat.eqb_eq in E. split; [exact E | reflexivity].
      * clear IH. induction rest; constructor; [left; reflexivity | assumption].
    + constructor; [left; reflexivity | exact IH].
Qed.

Lemma mousemove_ids (ws : list Wall) (ops : list Opening) (ds : DragState)
    (canvas : option (num * num)) (mx my : num) :
  map id (mousemove ws ops ds canvas mx my) = map id ops.
Proof.
  unfold mousemove.
  destruct (negb (isDragging ds)); [reflexivity|].
  destruct (targetId ds) as [t|]; [|reflexivity].
  destruct (findOpening t ops) as [op|]; [|reflexivity].
  destruct canvas as [[PW PH]|]; [|reflexivity].
  apply updateFirst_ids. intro o'. reflexivity.
Qed.

Lemma filter_ids_NoDup (f : Opening -> bool) (ops : list Opening) :
  NoDup (map id ops) -> NoDup (map id (filter f ops)).
Proof.
  induction ops as [|o rest IH]; cbn [filter map]; intro H.
  - constructor.
  - inversion H as [|a l Hnin Hnd]; subst.
    destruct (f o); cbn [map].
    + constructor; [|apply IH; exact Hnd].
      intro Hin. apply Hnin. apply in_map_iff in Hin.
      destruct Hin as [o' [E Hin]]. apply filter_In in Hin.
      apply in_map_iff. exists o'. split; [exact E | apply Hin].
    + apply IH. exact Hnd.
Qed.

Lemma idsFresh_same_ids (st st' : State) :
  map id (openings st') = map id (openings st) -> nextId st' = nextId st ->
  idsFresh st -> idsFresh st'.
Proof.
  unfold idsFresh. intros Eids En H. rewrite Eids, En. exact H.
Qed.

Lemma idsFresh_update (t : nat) (f : Opening -> Opening) (st : State) :
  (forall o, id (f o) = id o) ->
  idsFresh st ->
  idsFresh (match findOpening t (openings st) with
            | None => st
            | Some _ => {| openings := updateFirst t f (openings st);
                           nextId := nextId st |}
            end).
Proof.
  intros Hf H. destruct (findOpening t (openings st)); [|exact H].
  apply (idsFresh_same_ids st); [|reflexivity|exact H].
  cbn [openings]. apply updateFirst_ids. exact Hf.
Qed.

Lemma filter_ids_incl (f : Opening -> bool) (ops : list Opening) (i : nat) :
  In i (map id (filter f ops)) -> In i (map id ops).
Proof.
  intro Hin. apply in_map_iff in Hin. destruct Hin as [o [E Hin]].
  apply filter_In in Hin. apply in_map_iff. exists o.
  split; [exact E | apply Hin].
Qed.

Lemma reachable_idsFresh (st : State) : reachable st -> idsFresh st.
Proof.
  intro R.
  induction R as [|ws st ty idx R IH|t st R IH|t f v st R IH|t idx st R IH
                  |t ty st R IH|ws ds canvas mx my st R IH].
  - split; [constructor | split; [constructor | apply Nat.le_refl]].
  - destruct IH as [Hnd [Hlt Hn]]. unfold idsFresh.
    cbn [addOpening openings nextId]. rewrite map_app. cbn [map id].
    rewrite Forall_forall in Hlt. split; [|split].
    + rewrite <- (rev_involutive (map id (openings st) ++ [nextId st])).
      apply NoDup_rev. rewrite rev_app_distr. cbn [rev app].
      constructor; [|apply NoDup_rev; exact Hnd].
      rewrite <- in_rev. intro Hin. specialize (Hlt _ Hin). lia.
    + apply Forall_app. split.
      * apply Forall_forall. intros i Hin. specialize (Hlt _ Hin). lia.
      * constructor; [lia | constructor].
    + lia.
  - destruct IH as [Hnd [Hlt Hn]]. split; [|split].
    + cbn [removeOpening openings]. apply filter_ids_NoDup. exact Hnd.
    + cbn [removeOpening openings nextId]. rewrite Forall_forall in *.
      intros i Hin. apply Hlt. eapply filter_ids_incl. exact Hin.
    + exact Hn.
  - apply idsFresh_update; [|exact IH]. intro o. destruct f; reflexivity.
  - apply idsFresh_update; [|exact IH]. intro o. reflexivity.
  - apply idsFresh_update; [|exact IH]. intro o. reflexivity.
  - apply (idsFresh_same_ids st); [|reflexivity|exact IH].
    cbn [dragMove openings]. apply mousemove_ids.
Qed.

(** X15: in every state the handlers reach from the reset state, the
    openings have pairwise different ids, every id is at least 1 and below
    [nextId]; so an id given to [removeOpening], [updateOpeningField] or a
    drag names at most one opening. *)
Theorem opening_ids_stay_unique (st : State) :
  reachable st ->
  NoDup (map id (openings st)) /\
  Forall (fun o => (1 <= id o < nextId st)%nat) (openings st).
Proof.
  intro R. destruct (reachable_idsFresh st R) as [Hnd [Hlt _]].
  split; [exact Hnd|]. rewrite Forall_map in Hlt. exact Hlt.
Qed.

Lemma opening_ids_stay_unique_witness :
  NoDup (map id (openings oneDoorState)) /\
  Forall (fun o => (1 <= id o < nextId oneDoorState)%nat)
         (openings oneDoorState).
Proof.
  exact (opening_ids_stay_unique oneDoorState
           (reach_add [] resetState None None reach_reset)).
Defined.

Lemma max0_nonneg_Fin (z : Q) :
  exists t : Q, max (Fin 0) (Fin z) = Fin t /\ (0 <= t)%Q /\
                ((0 <= z)%Q -> (t == z)%Q).
Proof.
  destruct (TileExtra.max0_Fin_spec z) as [t [E Ht]]. exists t.
  split; [exact E|]. split.
  - rewrite Ht. apply Q.le_max_l.
  - intro Hz. rewrite Ht. apply Q.max_r. exact Hz.
Qed.

(** X16: a new opening is appended with the id [nextId], at a position
    that is not negative; when its default size fits the wall it lies
    within the wall, centred across, a door standing on the lower edge and
    a window or mirror centred in height. *)
Theorem new_opening_placed_within_wall (ws : list Wall) (st : State)
    (ty : OpeningType) (idx : nat) (W H dw dh : Q) :
  wallAt ws idx = mkWall (Fin W) (Fin H) ->
  OPENING_DEFAULTS ty = (Fin dw, Fin dh) ->
  exists (o : Opening) (xq yq : Q),
    openings (addOpening ws st (Some ty) (Some idx)) = openings st ++ [o] /\
    id o = nextId st /\
    x o = Fin xq /\ y o = Fin yq /\ (0 <= xq)%Q /\ (0 <= yq)%Q /\
    ((dw <= W)%Q -> (dh <= H)%Q ->
     fitsWall W H xq yq dw dh /\
     (xq + dw / 2 == W / 2)%Q /\
     match ty with
     | door => (yq + dh == H)%Q
     | _ => (yq + dh / 2 == H / 2)%Q
     end).
Proof.
  intros Hw Hd. unfold addOpening. rewrite Hw, Hd. cbn [fst snd w h].
  cbn [sub neg add]. rewrite !div_Fin by discriminate.
  destruct (max0_nonneg_Fin ((W + - dw) / 2)) as [xq [Ex [Hx0 Hx]]].
  destruct (max0_nonneg_Fin ((H + - dh) / 2)) as [yc [Eyc [Hyc0 Hyc]]].
  destruct (max0_nonneg_Fin (H + - dh)) as [yd [Eyd [Hyd0 Hyd]]].
  rewrite Ex, Eyc, Eyd.
  assert (Hhalf : forall a b : Q, (b <= a)%Q -> (0 <= (a + - b) / 2)%Q).
  { intros a b Hab. apply Qle_shift_div_l; [reflexivity | lra]. }
  assert (Hmid : forall a b : Q, ((a + - b) / 2 + b / 2 == a / 2)%Q).
  { intros a b. field. }
  assert (Hin : forall a b : Q, (b <= a)%Q -> ((a + - b) / 2 + b <= a)%Q).
  { intros a b Hab.
    assert (E : ((a + - b) / 2 + b == a - (a + - b) / 2)%Q) by field.
    rewrite E. specialize (Hhalf a b Hab). lra. }
  destruct ty; eexists _, xq, _; (split; [reflexivity|]);
    (split; [reflexivity|]); (split; [reflexivity|]);
    (split; [reflexivity|]); (split; [exact Hx0|]);
    (split; [first [exact Hyd0 | exact Hyc0]|]);
    intros H1 H2; specialize (Hx (Hhalf _ _ H1)).
  - assert (Ey : (yd == H + - dh)%Q) by (apply Hyd; lra).
    unfold fitsWall. rewrite Hx, Ey.
    split; [|split; [apply Hmid | lra]].
    split; [apply Hhalf; exact H1|]. split; [apply Hin; exact H1|].
    split; lra.
  - assert (Ey : (yc == (H + - dh) / 2)%Q) by (apply Hyc; apply Hhalf; exact H2).
    unfold fitsWall. rewrite Hx, Ey.
    split; [|split; apply Hmid].
    split; [apply Hhalf; exact H1|]. split; [apply Hin; exact H1|].
    split; [apply Hhalf; exact H2 | apply Hin; exact H2].
  - assert (Ey : (yc == (H + - dh) / 2)%Q) by (apply Hyc; apply Hhalf; exact H2).
    unfold fitsWall. rewrite Hx, Ey.
    split; [|split; apply Hmid].
    split; [apply Hhalf; exact H1|]. split; [apply Hin; exact H1|].
    split; [apply Hhalf; exact H2 | apply Hin; exact H2].
Qed.

Lemma new_opening_placed_within_wall_witness :
  exists (o : Opening) (xq yq : Q),
    openings (addOpening [mkWall (Fin 4) (Fin 3)] resetState
                (Some window) (Some 0%nat))
      = openings resetState ++ [o] /\
    id o = nextId resetState /\
    x o = Fin xq /\ y o = Fin yq /\ (0 <= xq)%Q /\ (0 <= yq)%Q /\
    ((1.20 <= 4)%Q -> (1.40 <= 3)%Q ->
     fitsWall 4 3 xq yq 1.20 1.40 /\
     (xq + 1.20 / 2 == 4 / 2)%Q /\ (yq + 1.40 / 2 == 3 / 2)%Q).
Proof.
  exact (new_opening_placed_within_wall [mkWall (Fin 4) (Fin 3)] resetState
           window 0 4 3 1.20 1.40 eq_refl eq_refl).
Defined.

Lemma updateFirst_other (t t' : nat) (f : Opening -> Opening)
    (ops : list Opening) :
  (forall o, id (f o) = id o) -> t' <> t ->
  findOpening t' (updateFirst t f ops) = findOpening t' ops.
Proof.
  intros Hf Hne. unfold findOpening.
  induction ops as [|o rest IH]; cbn [updateFirst find].
  - reflexivity.
  - destruct (Nat.eqb (id o) t) eqn:E; cbn [find].
    + rewrite Hf. apply Nat.eqb_eq in E.
      destruct (Nat.eqb (id o) t') eqn:E'.
      * apply Nat.eqb_eq in E'. exfalso. apply Hne. congruence.
      * reflexivity.
    + rewrite IH. reflexivity.
Qed.

Lemma editsOnly_update (t : nat) (f : Opening -> Opening) (st : State) :
  (forall o, id (f o) = id o) ->
  editsOnly t f st
    (match findOpening t (openings st) with
     | None => st
     | Some _ => {| openings := updateFirst t f (openings st);
                    nextId := nextId st |}
     end).
Proof.
  intro Hf. unfold editsOnly.
  destruct (findOpening t (openings st)) as [op|] eqn:E.
  - cbn [openings nextId]. split; [reflexivity|].
    split; [apply updateFirst_ids; exact Hf|].
    split; [intros t' Hne; apply updateFirst_other; assumption|].
    split; [discriminate|].
    intros o Ho. injection Ho as <-.
    apply findOpening_updateFirst; assumption.
  - split; [reflexivity|]. split; [reflexivity|].
    split; [reflexivity|]. split; [reflexivity|].
    intros o Ho. discriminate Ho.
Qed.

(** X17: an edit of a size field, of the type or of the wall of the
    opening [t] changes that opening only: the other openings, the order,
    the ids and [nextId] are kept, and an id that names no opening leaves
    the state as it is. The size stored is the typed number, [0] for a
    text that is no number; the type change sets the default size of the
    new type and keeps the position. *)
Theorem edits_touch_only_target (t : nat) (st : State) :
  (forall (f : SizeField) (v : num),
     editsOnly t (setSize f (num0 v)) st (updateOpeningField t f v st)) /\
  (forall ty : OpeningType,
     editsOnly t (setType ty) st (updateOpeningType t ty st)) /\
  (forall idx : nat,
     editsOnly t (setWallIndex idx) st (updateOpeningWall t idx st)).
Proof.
  split; [|split].
  - intros f v. apply editsOnly_update. intro o. destruct f; reflexivity.
  - intro ty. apply editsOnly_update. intro o. reflexivity.
  - intro idx. apply editsOnly_update. intro o. reflexivity.
Qed.

Lemma filter_find_none (t : nat) (ops : list Opening) :
  findOpening t (filter (fun o => negb (Nat.eqb (id o) t)) ops) = None.
Proof.
  unfold findOpening. induction ops as [|o rest IH]; cbn [filter find].
  - reflexivity.
  - destruct (Nat.eqb (id o) t) eqn:E; cbn [negb find].
    + exact IH.
    + rewrite E. exact IH.
Qed.

Lemma filter_find_other (t t' : nat) (ops : list Opening) :
  t' <> t ->
  findOpening t' (filter (fun o => negb (Nat.eqb (id o) t)) ops) =
  findOpening t' ops.
Proof.
  intro Hne. unfold findOpening.
  induction ops as [|o rest IH]; cbn [filter find].
  - reflexivity.
  - destruct (Nat.eqb (id o) t) eqn:E; cbn [negb find].
    + apply Nat.eqb_eq in E. destruct (Nat.eqb (id o) t') eqn:E'.
      * apply Nat.eqb_eq in E'. exfalso. apply Hne. congruence.
      * exact IH.
    + rewrite IH. reflexivity.
Qed.

Lemma filter_absent (t : nat) (ops : list Opening) :
  ~ In t (map id ops) ->
  filter (fun o => negb (Nat.eqb (id o) t)) ops = ops.
Proof.
  induction ops as [|o rest IH]; cbn [filter map]; intro Hnin.
  - reflexivity.
  - destruct (Nat.eqb (id o) t) eqn:E; cbn [negb].
    + apply Nat.eqb_eq in E. exfalso. apply Hnin. left. exact E.
    + rewrite IH; [reflexivity|]. intro Hin. apply Hnin. right. exact Hin.
Qed.

Lemma findOpening_none_absent (t : nat) (ops : list Opening) :
  findOpening t ops = None -> ~ In t (map id ops).
Proof.
  unfold findOpening. intros Hf Hin. apply in_map_iff in Hin.
  destruct Hin as [o [E Hin]].
  apply (find_none _ _ Hf) in Hin. rewrite E, Nat.eqb_refl in Hin.
  discriminate Hin.
Qed.

Lemma filter_removes_one (t : nat) (ops : list Opening) :
  NoDup (map id ops) -> In t (map id ops) ->
  S (length (filter (fun o => negb (Nat.eqb (id o) t)) ops)) = length ops.
Proof.
  induction ops as [|o rest IH]; cbn [filter map length]; intros Hnd Hin.
  - destruct Hin.
  - inversion Hnd as [|a l Hnin Hnd']; subst.
    destruct (Nat.eqb (id o) t) eqn:E; cbn [negb length].
    + apply Nat.eqb_eq in E. rewrite filter_absent; [reflexivity|].
      rewrite <- E. exact Hnin.
    + f_equal. apply IH; [exact Hnd'|].
      destruct Hin as [Hin|Hin]; [|exact Hin].
      apply Nat.eqb_neq in E. contradiction.
Qed.

(** X18: [removeOpening] takes the opening with the given id out and
    nothing else: afterwards the id names no opening, every other id names
    the opening it named before, an id that names no opening leaves the
    state as it is, and in a state the handlers can reach exactly one
    opening goes. *)
Theorem remove_takes_exactly_the_target (t : nat) (st : State) :
  findOpening t (openings (removeOpening t st)) = None /\
  (forall t' : nat, t' <> t ->
     findOpening t' (openings (removeOpening t st)) =
     findOpening t' (openings st)) /\
  (findOpening t (openings st) = None -> removeOpening t st = st) /\
  (reachable st -> findOpening t (openings st) <> None ->
   S (length (openings (removeOpening t st))) = length (openings st)).
Proof.
  cbn [removeOpening openings]. split; [apply filter_find_none|].
  split; [intros t' Hne; apply filter_find_other; exact Hne|]. split.
  - intro Hn. unfold removeOpening.
    rewrite filter_absent by (apply findOpening_none_absent; exact Hn).
    destruct st; reflexivity.
  - intros R Hsome. destruct (reachable_idsFresh st R) as [Hnd _].
    apply filter_removes_one; [exact Hnd|].
    destruct (findOpening t (openings st)) as [o|] eqn:E; [|contradiction].
    unfold findOpening in E. apply find_some in E. destruct E as [Hin E].
    apply Nat.eqb_eq in E. rewrite <- E. apply in_map. exact Hin.
Qed.

Lemma remove_takes_exactly_the_target_witness :
  S (length (openings (removeOpening 1 oneDoorState)))
  = length (openings oneDoorState).
Proof.
  apply (proj2 (proj2 (proj2 (remove_takes_exactly_the_target 1 oneDoorState))));
    [exact (reach_add [] resetState None None reach_reset) | discriminate].
Defined.

(** X19: a pointer move changes at most the opening being dragged, and of
    that only the position: the list keeps its length and order, every
    opening keeps its id, type, size and wall, and an opening that is not
    the drag target is unchanged. *)
Theorem drag_moves_only_the_target (ws : list Wall) (ops : list Opening)
    (ds : DragState) (canvas : option (num * num)) (mx my : num) :
  Forall2 (fun o o' =>
             sameButPosition o o' /\
             (o' = o \/
              (isDragging ds = true /\ targetId ds = Some (id o))))
          ops (mousemove ws ops ds canvas mx my).
Proof.
  assert (Hsame : Forall2 (fun o o' =>
            sameButPosition o o' /\
            (o' = o \/ (isDragging ds = true /\ targetId ds = Some (id o))))
            ops ops).
  { induction ops as [|o rest IH]; constructor; [|exact IH].
    split; [repeat split | left; reflexivity]. }
  unfold mousemove.
  destruct (isDragging ds) eqn:Ed; cbn [negb]; [|exact Hsame].
  destruct (targetId ds) as [t|] eqn:Et; [|exact Hsame].
  destruct (findOpening t ops) as [op|]; [|exact Hsame].
  destruct canvas as [[PW PH]|]; [|exact Hsame].
  eapply Forall2_impl; [|apply updateFirst_Forall2].
  cbn beta. intros o o' [-> | [Eid ->]].
  - split; [repeat split | left; reflexivity].
  - split; [repeat split|]. right. split; [reflexivity|]. rewrite Eid.
    reflexivity.
Qed.

Lemma updateFirst_idem (t : nat) (f : Opening -> Opening)
    (ops : list Opening) :
  (forall o, id (f o) = id o) -> (forall o, f (f o) = f o) ->
  updateFirst t f (updateFirst t f ops) = updateFirst t f ops.
Proof.
  intros Hid Hf. induction ops as [|o rest IH]; cbn [updateFirst].
  - reflexivity.
  - destruct (Nat.eqb (id o) t) eqn:E; cbn [updateFirst].
    + rewrite Hid, E, Hf. reflexivity.
    + rewrite E, IH. reflexivity.
Qed.

(** X20: the position a pointer move stores depends on the pointer and on
    the offset taken at the press, not on the position stored before: the
    same move event handled twice gives the state of handling it once. *)
Theorem drag_move_idempotent (ws : list Wall) (ops : list Opening)
    (ds : DragState) (canvas : option (num * num)) (mx my : num) :
  mousemove ws (mousemove ws ops ds canvas mx my) ds canvas mx my =
  mousemove ws ops ds canvas mx my.
Proof.
  unfold mousemove.
  destruct (isDragging ds) eqn:Ed; cbn [negb]; [|reflexivity].
  destruct (targetId ds) as [t|] eqn:Et; [|reflexivity].
  destruct (findOpening t ops) as [op|] eqn:Ef.
  - destruct canvas as [[PW PH]|]; [|rewrite Ef; reflexivity].
    match goal with
    | |- context [updateFirst t ?f ops] =>
        rewrite (findOpening_updateFirst t f ops op (fun o => eq_refl) Ef);
        apply (updateFirst_idem t f ops);
          [intro o; reflexivity | intro o; reflexivity]
    end.
  - rewrite Ef. reflexivity.
Qed.

Lemma find_rev_last {A : Type} (f : A -> bool) (l : list A) :
  match find f (rev l) with
  | Some a => exists l1 l2, l = l1 ++ a :: l2 /\ f a = true /\
                            Forall (fun b => f b = false) l2
  | None => Forall (fun b => f b = false) l
  end.
Proof.
  induction l as [|b l IH] using rev_ind.
  - constructor.
  - rewrite rev_app_distr. cbn [rev app find].
    destruct (f b) eqn:E.
    + exists l, []. split; [reflexivity|]. split; [exact E | constructor].
    + destruct (find f (rev l)) as [a|].
      * destruct IH as [l1 [l2 [El [Ha Hl2]]]].
        exists l1, (l2 ++ [b]). split.
        -- rewrite El, <- app_assoc. reflexivity.
        -- split; [exact Ha|]. apply Forall_app. split; [exact Hl2|].
           constructor; [exact E | constructor].
      * apply Forall_app. split; [exact IH|].
        constructor; [exact E | constructor].
Qed.

Lemma filter_split {A : Type} (p : A -> bool) (l : list A) (l1 l2 : list A)
    (a : A) :
  filter p l = l1 ++ a :: l2 ->
  exists o1 o2, l = o1 ++ a :: o2 /\ filter p o1 = l1 /\ filter p o2 = l2.
Proof.
  revert l1. induction l as [|b l IH]; cbn [filter]; intros l1 E.
  - destruct l1; discriminate E.
  - destruct (p b) eqn:Ep.
    + destruct l1 as [|c l1]; cbn [app] in E.
      * injection E as -> E. exists [], l. split; [reflexivity|].
        split; [reflexivity | exact E].
      * injection E as -> E. destruct (IH l1 E) as [o1 [o2 [El [E1 E2]]]].
        exists (c :: o1), o2. split; [rewrite El; reflexivity|].
        split; [|exact E2]. cbn [filter]. rewrite Ep, E1. reflexivity.
    + destruct (IH l1 E) as [o1 [o2 [El [E1 E2]]]].
      exists (b :: o1), o2. split; [rewrite El; reflexivity|].
      split; [|exact E2]. cbn [filter]. rewrite Ep. exact E1.
Qed.

(** A press either leaves the drag state or grabs an opening of the
    list. *)
Lemma mousedown_grab (ws : list Wall) (ops : list Opening) (ds : DragState)
    (idx : nat) (PW PH mx my : num) :
  let m := hitMapping (wallAt ws idx) PW PH in
  let ds' := mousedown ws ops ds idx PW PH mx my in
  ds' = ds \/
  exists op,
    In op ops /\
    ds' = {| targetId := Some (id op); isDragging := true;
             startX := (mx - (ox m + x op * scale m)) / scale m;
             startY := (my - (oy m + y op * scale m)) / scale m;
             dragWallIndex := idx |}.
Proof.
  intros m ds'. subst ds'. unfold mousedown. fold m.
  destruct (find (hits m mx my)
              (rev (filter (fun op => Nat.eqb (wallIndex op) idx) ops)))
    as [op|] eqn:E.
  - right. exists op. split; [|reflexivity].
    apply find_some in E. destruct E as [Hin _].
    apply in_rev in Hin. apply filter_In in Hin. apply Hin.
  - left. reflexivity.
Qed.

(** X21: a press on the canvas of wall [idx] either finds no opening of
    that wall under the pointer and leaves the drag state as it is, or it
    grabs the opening of that wall under the pointer that comes last in the
    list (the one drawn on top), and records its id, the wall index and the
    pointer's offset from the opening's corner in metres. *)
Theorem press_grabs_topmost_opening (ws : list Wall) (ops : list Opening)
    (ds : DragState) (idx : nat) (PW PH mx my : num) :
  let m := hitMapping (wallAt ws idx) PW PH in
  let ds' := mousedown ws ops ds idx PW PH mx my in
  (ds' = ds /\
   forall o, In o ops -> wallIndex o = idx -> hits m mx my o = false) \/
  (exists before op after,
     ops = before ++ op :: after /\
     wallIndex op = idx /\ hits m mx my op = true /\
     (forall o, In o after -> wallIndex o = idx -> hits m mx my o = false) /\
     ds' = {| targetId := Some (id op); isDragging := true;
              startX := (mx - (ox m + x op * scale m)) / scale m;
              startY := (my - (oy m + y op * scale m)) / scale m;
              dragWallIndex := idx |}).
Proof.
  intros m ds'. subst ds'. unfold mousedown. fold m.
  pose proof (find_rev_last (hits m mx my)
                (filter (fun op => Nat.eqb (wallIndex op) idx) ops)) as Hf.
  destruct (find (hits m mx my)
              (rev (filter (fun op => Nat.eqb (wallIndex op) idx) ops)))
    as [op|].
  - right. destruct Hf as [l1 [l2 [El [Hop Hl2]]]].
    destruct (filter_split _ _ _ _ _ El) as [o1 [o2 [Eops [E1 E2]]]].
    exists o1, op, o2. split; [exact Eops|]. split.
    + assert (Hin : In op (filter (fun op => Nat.eqb (wallIndex op) idx) ops)).
      { rewrite El. apply in_or_app. right. left. reflexivity. }
      apply filter_In in Hin. apply Nat.eqb_eq. apply Hin.
    + split; [exact Hop|]. split; [|reflexivity].
      intros o Hin Hidx. rewrite Forall_forall in Hl2. apply Hl2.
      rewrite <- E2. apply filter_In. split; [exact Hin|].
      apply Nat.eqb_eq. exact Hidx.
  - left. split; [reflexivity|]. intros o Hin Hidx.
    rewrite Forall_forall in Hf. apply Hf. apply filter_In.
    split; [exact Hin|]. apply Nat.eqb_eq. exact Hidx.
Qed.

Lemma findOpening_unique (ops : list Opening) (op : Opening) :
  NoDup (map id ops) -> In op ops -> findOpening (id op) ops = Some op.
Proof.
  unfold findOpening.
  induction ops as [|o rest IH]; cbn [map find]; intros Hnd Hin.
  - destruct Hin.
  - inversion Hnd as [|a l Hnin Hnd']; subst.
    destruct Hin as [-> | Hin].
    + rewrite Nat.eqb_refl. reflexivity.
    + destruct (Nat.eqb (id o) (id op)) eqn:E.
      * apply Nat.eqb_eq in E. exfalso. apply Hnin. rewrite E.
        apply in_map. exact Hin.
      * apply IH; assumption.
Qed.

Lemma clamp_Fin (v c : Q) :
  exists x' : Q,
    max (Fin 0) (min (Fin v) (Fin c)) = Fin x' /\
    (x' == Qmax 0 (Qmin v c))%Q.
Proof.
  destruct (min_Fin v c) as [u [Eu Hu]]. rewrite Eu.
  destruct (TileExtra.max0_Fin_spec u) as [x' [Ex Hx]]. rewrite Ex.
  exists x'. split; [reflexivity|]. rewrite Hx.
  apply Q.max_compat; [reflexivity | exact Hu].
Qed.

(** X22: press and drag compose, the opening follows the pointer: if
    a press at [(mx, my)] grabs an opening at [(x, y)] and the pointer then
    moves to [(mx', my')] on the same canvas, the opening is stored at
    [x + (mx' - mx) / scale], limited to the range from [0] to
    [wallWidth - width], and likewise in height. Ids are unique, sizes and
    positions finite and the scale is not [0]. *)
Theorem drag_follows_pointer
    (ws : list Wall) (ops : list Opening) (ds : DragState) (idx t : nat)
    (op : Opening) (W H PW PH mx my mx' my' s xq yq ow oh : Q) :
  NoDup (map id ops) ->
  isDragging ds = false ->
  wallAt ws idx = mkWall (Fin W) (Fin H) ->
  scale (hitMapping (mkWall (Fin W) (Fin H)) (Fin PW) (Fin PH)) = Fin s ->
  ~ (s == 0)%Q ->
  isDragging (mousedown ws ops ds idx (Fin PW) (Fin PH) (Fin mx) (Fin my))
    = true ->
  targetId (mousedown ws ops ds idx (Fin PW) (Fin PH) (Fin mx) (Fin my))
    = Some t ->
  findOpening t ops = Some op ->
  x op = Fin xq -> y op = Fin yq -> width op = Fin ow -> height op = Fin oh ->
  exists (op' : Opening) (x' y' : Q),
    findOpening t
      (mousemove ws ops
         (mousedown ws ops ds idx (Fin PW) (Fin PH) (Fin mx) (Fin my))
         (Some (Fin PW, Fin PH)) (Fin mx') (Fin my')) = Some op' /\
    x op' = Fin x' /\ y op' = Fin y' /\
    (x' == Qmax 0 (Qmin (xq + (mx' - mx) / s) (W - ow)))%Q /\
    (y' == Qmax 0 (Qmin (yq + (my' - my) / s) (H - oh)))%Q.
Proof.
  intros Hnd Hidle Hwall Hs Hs0 Hdrag Ht Hfind Hx Hy How Hoh.
  destruct (mousedown_grab ws ops ds idx (Fin PW) (Fin PH) (Fin mx) (Fin my))
    as [E | [op0 [Hin E]]].
  { rewrite E, Hidle in Hdrag. discriminate Hdrag. }
  rewrite E in Ht |- *. clear E Hdrag. cbn [targetId] in Ht.
  injection Ht as Ht. subst t.
  assert (Hop0 : op0 = op).
  { pose proof (findOpening_unique ops op0 Hnd Hin) as Hu.
    rewrite Hfind in Hu. injection Hu as ->. reflexivity. }
  subst op0.
  unfold mousemove. cbn [isDragging targetId negb dragWallIndex].
  rewrite Hfind, Hwall.
  destruct (hitMapping_Fin W H PW PH) as [s0 [a [b Em]]].
  rewrite Em in Hs |- *. cbn [scale] in Hs. injection Hs as ->.
  match goal with
  | |- context [updateFirst ?t ?f ops] =>
      rewrite (findOpening_updateFirst t f ops op (fun o => eq_refl) Hfind)
  end.
  unfold dragged. cbn [scale ox oy w h x y startX startY].
  rewrite Hx, Hy, How, Hoh.
  destruct (num0_Fin_eqv W) as [W0 [EW HW0]].
  destruct (num0_Fin_eqv H) as [H0 [EH HH0]].
  unfold num0, parseFloat in EW, EH. rewrite EW, EH.
  cbn [sub neg add mul]. rewrite !(div_Fin _ s Hs0). cbn [sub neg add].
  match goal with
  | |- context [max (Fin 0) (min (Fin ?v) (Fin (W0 + - ow)))] =>
      destruct (clamp_Fin v (W0 + - ow)) as [x' [Ex Hx']]
  end.
  match goal with
  | |- context [max (Fin 0) (min (Fin ?v) (Fin (H0 + - oh)))] =>
      destruct (clamp_Fin v (H0 + - oh)) as [y' [Ey Hy']]
  end.
  eexists _, x', y'. split; [reflexivity|]. cbn [x y].
  split; [exact Ex|]. split; [exact Ey|]. split.
  - rewrite Hx'. apply Q.max_compat; [reflexivity|].
    apply Q.min_compat; [field; exact Hs0 | rewrite HW0; ring].
  - rewrite Hy'. apply Q.max_compat; [reflexivity|].
    apply Q.min_compat; [field; exact Hs0 | rewrite HH0; ring].
Qed.

Lemma drag_follows_pointer_witness :
  exists (op' : Opening) (x' y' : Q),
    findOpening 1
      (mousemove [mkWall (Fin 4) (Fin 3)] [doorAt1]
         (mousedown [mkWall (Fin 4) (Fin 3)] [doorAt1] idle 0
            (Fin 400) (Fin 350) (Fin 150) (Fin 200))
         (Some (Fin 400, Fin 350)) (Fin 230) (Fin 200)) = Some op' /\
    x op' = Fin x' /\ y op' = Fin y' /\
    (x' == Qmax 0 (Qmin (1 + (230 - 150) / ((400 + - (40 * 2)) / 4))
                        (4 - 0.9)))%Q /\
    (y' == Qmax 0 (Qmin (0.9 + (200 - 200) / ((400 + - (40 * 2)) / 4))
                        (3 - 2.1)))%Q.
Proof.
  apply (drag_follows_pointer [mkWall (Fin 4) (Fin 3)] [doorAt1] idle 0 1
           doorAt1 4 3 400 350 150 200 230 200 ((400 + - (40 * 2)) / 4)
           1 0.9 0.9 2.1);
    try reflexivity; try discriminate.
  constructor; [intros [] | constructor].
Defined.

(** X23: a wall with a positive size is drawn, on a canvas of at least
    80 by 110 pixels, as a rectangle inside the margins (40 pixels at the
    sides and below, 70 above), centred, and filling the space between the
    margins in width or in height; an opening that lies within the wall is
    drawn inside that rectangle. *)
Theorem wall_panel_fits_canvas (W H PW PH : Q) :
  (0 < W)%Q -> (0 < H)%Q -> (80 <= PW)%Q -> (110 <= PH)%Q ->
  exists s a b : Q,
    drawMapping (mkWall (Fin W) (Fin H)) (Fin PW) (Fin PH) =
      Some (mkMapping (Fin s) (Fin a) (Fin b)) /\
    (0 <= s)%Q /\
    (40 <= a)%Q /\ (a + W * s <= PW - 40)%Q /\
    (70 <= b)%Q /\ (b + H * s <= PH - 40)%Q /\
    (a + W * s / 2 == PW / 2)%Q /\
    (b + H * s / 2 == 30 + (PH - 30) / 2)%Q /\
    ((W * s == PW - 80)%Q \/ (H * s == PH - 110)%Q) /\
    (forall xq yq ow oh : Q,
       (0 <= ow)%Q -> (0 <= oh)%Q -> fitsWall W H xq yq ow oh ->
       exists px py : Q,
         forward (mkMapping (Fin s) (Fin a) (Fin b)) (Fin xq, Fin yq) =
           (Fin px, Fin py) /\
         (a <= px)%Q /\ (px + ow * s <= a + W * s)%Q /\
         (b <= py)%Q /\ (py + oh * s <= b + H * s)%Q).
Proof.
  intros HW HH HPW HPH. unfold drawMapping, PAD, LABEL. cbn [w h].
  rewrite (num0_Fin_pos _ HW), (num0_Fin_pos _ HH).
  assert (E1 : (Fin W <=? Fin 0) = false) by (apply le_Fin_false; exact HW).
  assert (E2 : (Fin H <=? Fin 0) = false) by (apply le_Fin_false; exact HH).
  rewrite E1, E2. cbn [orb sub neg add mul].
  rewrite (div_Fin _ W (Qpos_neq0 _ HW)), (div_Fin _ H (Qpos_neq0 _ HH)).
  match goal with
  | |- context [min (Fin ?A) (Fin ?B)] =>
      destruct (min_Fin A B) as [s [Es Hs]]; rewrite !Es;
      set (qa := A) in *; set (qb := B) in *
  end.
  cbn [sub neg add mul]. rewrite !div_Fin by discriminate. cbn [add].
  assert (Ha : (qa * W == PW - 80)%Q).
  { unfold qa. field. apply Qpos_neq0. exact HW. }
  assert (Hb : (qb * H == PH - 110)%Q).
  { unfold qb. field. apply Qpos_neq0. exact HH. }
  assert (Hsa : (s <= qa)%Q) by (rewrite Hs; apply Q.le_min_l).
  assert (Hsb : (s <= qb)%Q) by (rewrite Hs; apply Q.le_min_r).
  assert (Hqa0 : (0 <= qa)%Q).
  { unfold qa. apply Qle_shift_div_l; [exact HW | lra]. }
  assert (Hqb0 : (0 <= qb)%Q).
  { unfold qb. apply Qle_shift_div_l; [exact HH | lra]. }
  assert (Hs0 : (0 <= s)%Q) by (rewrite Hs; apply Q.min_glb; assumption).
  assert (Hor : (s == qa)%Q \/ (s == qb)%Q).
  { destruct (Q.min_dec qa qb) as [E|E]; [left|right]; rewrite Hs; exact E. }
  clearbody qa qb.
  assert (HWs : (W * s <= PW - 80)%Q) by nra.
  assert (HHs : (H * s <= PH - 110)%Q) by nra.
  eexists s, _, _. split; [reflexivity|].
  match goal with
  | |- _ /\ (40 <= ?a)%Q /\ _ /\ (70 <= ?b)%Q /\ _ =>
      assert (Ea : (a == (PW - W * s) / 2)%Q) by (field);
      assert (Eb : (b == 30 + (PH - 30 - H * s) / 2)%Q) by (field);
      set (qx := a) in *; set (qy := b) in *; clearbody qx qy
  end.
  assert (Ea2 : (2 * qx == PW - W * s)%Q) by (rewrite Ea; field).
  assert (Eb2 : (2 * qy == 60 + (PH - 30 - H * s))%Q) by (rewrite Eb; field).
  split; [exact Hs0|].
  split; [lra|]. split; [lra|]. split; [lra|]. split; [lra|].
  split; [|split; [|split]].
  - assert (E : (qx + W * s / 2 == (2 * qx + W * s) / 2)%Q) by field.
    rewrite E, Ea2. field.
  - assert (E : (qy + H * s / 2 == (2 * qy + H * s) / 2)%Q) by field.
    rewrite E, Eb2. field.
  - destruct Hor as [E|E]; [left | right]; rewrite E.
    + rewrite <- Ha. ring.
    + rewrite <- Hb. ring.
  - intros xq yq ow oh How Hoh [Hx0 [Hx1 [Hy0 Hy1]]].
    unfold forward. cbn [fst snd ox oy scale mul add].
    eexists _, _. split; [reflexivity|].
    assert (K1 : (0 <= xq * s)%Q) by nra.
    assert (K2 : (0 <= yq * s)%Q) by nra.
    assert (K3 : ((xq + ow) * s <= W * s)%Q) by nra.
    assert (K4 : ((yq + oh) * s <= H * s)%Q) by nra.
    split; [lra|]. split; [lra|]. split; lra.
Qed.

Lemma wall_panel_fits_canvas_witness :
  exists s a b : Q,
    drawMapping (mkWall (Fin 4) (Fin 3)) (Fin 400) (Fin 350) =
      Some (mkMapping (Fin s) (Fin a) (Fin b)) /\
    (0 <= s)%Q /\
    (40 <= a)%Q /\ (a + 4 * s <= 400 - 40)%Q /\
    (70 <= b)%Q /\ (b + 3 * s <= 350 - 40)%Q /\
    (a + 4 * s / 2 == 400 / 2)%Q /\
    (b + 3 * s / 2 == 30 + (350 - 30) / 2)%Q /\
    ((4 * s == 400 - 80)%Q \/ (3 * s == 350 - 110)%Q) /\
    (forall xq yq ow oh : Q,
       (0 <= ow)%Q -> (0 <= oh)%Q -> fitsWall 4 3 xq yq ow oh ->
       exists px py : Q,
         forward (mkMapping (Fin s) (Fin a) (Fin b)) (Fin xq, Fin yq) =
           (Fin px, Fin py) /\
         (a <= px)%Q /\ (px + ow * s <= a + 4 * s)%Q /\
         (b <= py)%Q /\ (py + oh * s <= b + 3 * s)%Q).
Proof.
  apply (wall_panel_fits_canvas 4 3 400 350);
    [reflexivity | reflexivity | discriminate | discriminate].
Defined.

Lemma nth_error_filter_prefix (ws : list Wall) (i : nat) :
  (i < length ws)%nat ->
  Forall (fun wl => validWall wl = true) (firstn (S i) ws) ->
  nth_error (filter validWall ws) i = Some (wallAt ws i).
Proof.
  unfold wallAt. revert i.
  induction ws as [|wl rest IH]; intros i Hi Hall; cbn [length] in Hi.
  - lia.
  - cbn [firstn] in Hall. inversion Hall as [|a l Hv Hrest]; subst.
    cbn [filter]. rewrite Hv. destruct i as [|i]; cbn [nth_error nth].
    + reflexivity.
    + apply IH; [lia | exact Hrest].
Qed.

(** X24: the panel drawn with index [i] shows the wall the press and drag
    handlers take for that index when the walls up to [i] all have a
    positive size; after a wall without a positive size the two differ: the
    first panel then shows the second wall while the handlers compute with
    the first. *)
Theorem panel_index_agrees_when_walls_valid (dom : Dom) :
  (forall i : nat,
     (i < length (getCurrentWalls dom))%nat ->
     Forall (fun wl => validWall wl = true)
            (firstn (S i) (getCurrentWalls dom)) ->
     panelWall dom i = Some (handlerWall dom i)) /\
  (forall (w0 w1 : Wall) (rest : list Wall),
     getCurrentWalls dom = w0 :: w1 :: rest ->
     validWall w0 = false -> validWall w1 = true ->
     panelWall dom 0 = Some w1 /\ handlerWall dom 0 = w0).
Proof.
  unfold panelWall, handlerWall, validWalls. split.
  - intros i Hi Hall. apply nth_error_filter_prefix; assumption.
  - intros w0 w1 rest E H0 H1. rewrite E. cbn [filter].
    rewrite H0, H1. split; reflexivity.
Qed.

Lemma panel_index_agrees_when_walls_valid_witness :
  panelWall twoWallDom 1 = Some (handlerWall twoWallDom 1).
Proof.
  apply (proj1 (panel_index_agrees_when_walls_valid twoWallDom) 1%nat);
    [apply le_n | repeat constructor].
Defined.

Lemma wallsLoop_gross (tL tW : num) (ws : list Wall) (acc : num * num) :
  snd (fold_left (wallStep tL tW) ws acc) =
  fold_left (fun g wl =>
               if (num0 (w wl) >? Fin 0) && (num0 (h wl) >? Fin 0)
               then g + num0 (w wl) * num0 (h wl) else g)
            ws (snd acc).
Proof.
  revert acc. induction ws as [|wl rest IH]; intro acc; cbn [fold_left].
  - reflexivity.
  - rewrite IH. f_equal. unfold wallStep. destruct acc as [tb tg].
    cbn [snd].
    destruct ((num0 (w wl) >? Fin 0) && (num0 (h wl) >? Fin 0));
      reflexivity.
Qed.

Lemma getCurrentWalls_Q (dom : Dom) (ws : list (Q * Q)) :
  wallItems dom = wallInputsQ ws ->
  getCurrentWalls dom =
  map (fun s => mkWall (num0 (Fin (fst s))) (num0 (Fin (snd s)))) ws.
Proof.
  intro E. unfold getCurrentWalls. rewrite E. unfold wallInputsQ.
  rewrite map_map. reflexivity.
Qed.

Lemma display_fold_Q (ws : list (Q * Q)) (g : Q) :
  exists g1 : Q,
    fold_left (fun sum wl => sum + w wl * h wl)
      (map (fun s => mkWall (num0 (Fin (fst s))) (num0 (Fin (snd s)))) ws)
      (Fin g) = Fin g1 /\
    (g1 == g + sumAreasQ ws)%Q.
Proof.
  revert g. induction ws as [|[a b] rest IH]; intro g; cbn [map fold_left].
  - exists g. cbn [sumAreasQ]. split; [reflexivity | ring].
  - cbn [fst snd w h].
    destruct (num0_Fin_eqv a) as [a' [Ea Ha]].
    destruct (num0_Fin_eqv b) as [b' [Eb Hb]].
    rewrite Ea, Eb. cbn [mul add].
    destruct (IH (g + a' * b')%Q) as [g1 [E1 H1]].
    exists g1. split; [exact E1|].
    cbn [sumAreasQ fst snd]. rewrite H1, Ha, Hb. ring.
Qed.

(** The gross area the loop of the estimator adds up, for walls made
    from finite sizes by [mk]. *)
Lemma gross_fold_Q (mk : Q * Q -> Wall) (ws : list (Q * Q)) :
  (forall s, num0 (w (mk s)) = num0 (Fin (fst s)) /\
             num0 (h (mk s)) = num0 (Fin (snd s))) ->
  TileProps2.nonnegSizes ws ->
  forall g : Q,
  exists g2 : Q,
    fold_left (fun g wl =>
                 if (num0 (w wl) >? Fin 0) && (num0 (h wl) >? Fin 0)
                 then g + num0 (w wl) * num0 (h wl) else g)
      (map mk ws) (Fin g) = Fin g2 /\
    (g2 == g + sumAreasQ ws)%Q.
Proof.
  intro Hmk.
  induction ws as [|[a b] rest IH]; intros Hnn g; cbn [map fold_left].
  - exists g. cbn [sumAreasQ]. split; [reflexivity | ring].
  - assert (Hab : (0 <= a)%Q /\ (0 <= b)%Q).
    { apply (Hnn (a, b)). left. reflexivity. }
    assert (Hrest : TileProps2.nonnegSizes rest).
    { intros s Hin. apply Hnn. right. exact Hin. }
    destruct (Hmk (a, b)) as [-> ->]. cbn [fst snd].
    destruct (num0_Fin_eqv a) as [a' [Ea Ha]].
    destruct (num0_Fin_eqv b) as [b' [Eb Hb]].
    rewrite Ea, Eb. cbn [mul add]. destruct Hab as [Ha0 Hb0].
    destruct (Fin a' >? Fin 0) eqn:Ga; destruct (Fin b' >? Fin 0) eqn:Gb;
      cbn [andb].
    + destruct (IH Hrest (g + a' * b')%Q) as [g2 [E2 H2]].
      exists g2. split; [exact E2|].
      cbn [sumAreasQ fst snd]. rewrite H2, Ha, Hb. ring.
    + apply gt_Fin_false in Gb.
      assert (Hb' : (b == 0)%Q) by (rewrite Hb in Gb; lra).
      destruct (IH Hrest g) as [g2 [E2 H2]].
      exists g2. split; [exact E2|].
      cbn [sumAreasQ fst snd]. rewrite H2, Hb'. ring.
    + apply gt_Fin_false in Ga.
      assert (Ha' : (a == 0)%Q) by (rewrite Ha in Ga; lra).
      destruct (IH Hrest g) as [g2 [E2 H2]].
      exists g2. split; [exact E2|].
      cbn [sumAreasQ fst snd]. rewrite H2, Ha'. ring.
    + apply gt_Fin_false in Ga.
      assert (Ha' : (a == 0)%Q) by (rewrite Ha in Ga; lra).
      destruct (IH Hrest g) as [g2 [E2 H2]].
      exists g2. split; [exact E2|].
      cbn [sumAreasQ fst snd]. rewrite H2, Ha'. ring.
Qed.

(** X25: for wall rows that hold finite sizes, none negative, the gross
    area shown beside the inputs and the gross area of the estimate are
    both the sum of width times height over the rows. *)
Theorem gross_display_agrees_with_estimate (dom : Dom) (ws : list (Q * Q)) :
  wallItems dom = wallInputsQ ws ->
  TileProps2.nonnegSizes ws ->
  (exists G : Q, updateGrossDisplay dom = Fin G /\ (G == sumAreasQ ws)%Q) /\
  (forall (ops : list Opening) (r : Result),
     isQuickMode dom = false ->
     runCalculation dom ops = Some r ->
     exists G : Q, grossArea r = Fin G /\ (G == sumAreasQ ws)%Q).
Proof.
  intros Hw Hnn.
  destruct (display_fold_Q ws 0) as [g1 [E1 H1]].
  destruct (gross_fold_Q
              (fun s => mkWall (num0 (Fin (fst s))) (num0 (Fin (snd s)))) ws
              (fun s => conj (num0_idem _) (num0_idem _)) Hnn 0)
    as [g2 [E2 H2]].
  split.
  - exists g1. unfold updateGrossDisplay.
    rewrite (getCurrentWalls_Q dom ws Hw). split; [exact E1|].
    rewrite H1. ring.
  - intros ops r Hq Hrun. unfold runCalculation in Hrun. rewrite Hq in Hrun.
    destruct (Nat.eqb (length (filter validWall (getCurrentWalls dom))) 0);
      [discriminate Hrun|].
    injection Hrun as <-.
    match goal with
    | |- context [calculateAll ?p] =>
        destruct (calculateAll_eq p) as [_ E]; cbv zeta in E; rewrite E
    end.
    cbn [grossArea walls]. unfold wallsLoop.
    rewrite <- (filter_ext _ _ TileExtra.counted_validWall).
    rewrite TileExtra.wallsLoop_filter, wallsLoop_gross. cbn [snd].
    rewrite (getCurrentWalls_Q dom ws Hw).
    exists g2. split; [exact E2|]. rewrite H2. ring.
Qed.

Lemma gross_display_agrees_with_estimate_witness :
  (exists G : Q,
     updateGrossDisplay twoWallDom = Fin G /\
     (G == sumAreasQ [(4, 3); (5, 3)])%Q) /\
  (forall (ops : list Opening) (r : Result),
     isQuickMode twoWallDom = false ->
     runCalculation twoWallDom ops = Some r ->
     exists G : Q,
       grossArea r = Fin G /\ (G == sumAreasQ [(4, 3); (5, 3)])%Q).
Proof.
  apply (gross_display_agrees_with_estimate twoWallDom [(4, 3); (5, 3)]);
    [reflexivity | intros s [<- | [<- | []]]; split; discriminate].
Defined.

(** X27: the filled share of a slider: for finite attributes with
    [min < max], [max] not 0 and the value between them, the percentage
    lies between 0 and 100, is 0 at [min] and 100 at [max], and is
    [(value - min) / (max - min) * 100]. When [min] and [value] both equal
    a [max] that is not 0 the result is [NaN]. *)
Theorem range_fill_between_0_and_100 (mn mx v : Q) :
  ~ (mx == 0)%Q ->
  ((mn < mx)%Q -> (mn <= v)%Q -> (v <= mx)%Q ->
   exists p : Q,
     updateRangeBackground (Fin mn) (Fin mx) (Fin v) = Fin p /\
     (0 <= p)%Q /\ (p <= 100)%Q /\
     (p * (mx - mn) == (v - mn) * 100)%Q /\
     ((v == mn)%Q -> (p == 0)%Q) /\ ((v == mx)%Q -> (p == 100)%Q)) /\
  ((mn == mx)%Q -> (v == mx)%Q ->
   updateRangeBackground (Fin mn) (Fin mx) (Fin v) = NaN).
Proof.
  intro Hmx. unfold updateRangeBackground.
  rewrite (orElse_Fin_nonzero mx _ Hmx).
  destruct (num0_Fin_eqv mn) as [mn' [Emn Hmn]].
  destruct (num0_Fin_eqv v) as [v' [Ev Hv]].
  unfold num0, parseFloat in Emn, Ev. rewrite Emn, Ev.
  cbn [sub neg add]. split.
  - intros Hlt Hlo Hhi.
    assert (Hd : (0 < mx + - mn')%Q) by (rewrite Hmn; lra).
    rewrite (div_Fin _ _ (Qpos_neq0 _ Hd)). cbn [mul].
    eexists. split; [reflexivity|].
    assert (E : ((v' + - mn') / (mx + - mn') * (mx + - mn') == v' + - mn')%Q).
    { field. apply Qpos_neq0. exact Hd. }
    set (q := ((v' + - mn') / (mx + - mn'))%Q) in *. clearbody q.
    rewrite Hmn in E, Hd. rewrite Hv in E.
    assert (Hq0 : (0 <= q)%Q) by nra.
    assert (Hq1 : (q <= 1)%Q) by nra.
    split; [lra|]. split; [lra|]. split; [nra|].
    split; intro Eq; rewrite Eq in E; nra.
  - intros E1 E2.
    assert (Hz : Qeq_bool (mx + - mn') 0 = true).
    { apply Qeq_bool_iff. rewrite Hmn, E1. ring. }
    cbn [div]. rewrite Hz.
    assert (Hc : ((v' + - mn') ?= 0)%Q = Eq).
    { apply Qeq_alt. rewrite Hv, Hmn, E1, E2. ring. }
    rewrite Hc. reflexivity.
Qed.

Lemma range_fill_between_0_and_100_witness :
  exists p : Q,
    updateRangeBackground (Fin 0) (Fin 30) (Fin 10) = Fin p /\
    (0 <= p)%Q /\ (p <= 100)%Q /\
    (p * (30 - 0) == (10 - 0) * 100)%Q /\
    ((10 == 0)%Q -> (p == 0)%Q) /\ ((10 == 30)%Q -> (p == 100)%Q).
Proof.
  apply (proj1 (range_fill_between_0_and_100 0 30 10 ltac:(discriminate)));
    [reflexivity | discriminate | discriminate].
Defined.

End AppExtra.

(* ================================================================== *)
(** ** The helpers of calculator-logic.js beside the estimator *)
(* ================================================================== *)

Module HelperFacts.
Import TileLogic TileProps TileProps2 TileFacts TileGross Patterns.
Local Open Scope js_scope.

Lemma calcGrossArea_fold_Q (ws : list (Q * Q)) (g : Q) :
  exists g1 : Q,
    fold_left
      (fun sum wl => sum + num0 (TileLogic.width wl) * num0 (TileLogic.height wl))
      (map dimsQ ws) (Fin g) = Fin g1 /\
    (g1 == g + sumAreasQ ws)%Q.
Proof.
  revert g. induction ws as [|[a b] rest IH]; intro g; cbn [map fold_left].
  - exists g. cbn [sumAreasQ]. split; [reflexivity | ring].
  - change (dimsQ (a, b)) with (mkDims (Fin a) (Fin b)).
    cbn [TileLogic.width TileLogic.height].
    destruct (num0_Fin_eqv a) as [a' [Ea Ha]].
    destruct (num0_Fin_eqv b) as [b' [Eb Hb]].
    rewrite Ea, Eb. cbn [mul add].
    destruct (IH (g + a' * b')%Q) as [g1 [E1 H1]].
    exists g1. split; [exact E1|].
    cbn [sumAreasQ fst snd]. rewrite H1, Ha, Hb. ring.
Qed.

(** X26: for finite sizes, none negative, [calcGrossArea] over a list of
    walls gives the gross area [calculateAll] reports for the same walls,
    the sum of width times height; its second argument plays no part
    then, and the form with a length and a height gives their product. *)
Theorem gross_helper_agrees_with_estimate
    (ws os : list (Q * Q)) (tl tw g : Q) (wp : option Q) (sb : Q)
    (height : num) :
  nonnegSizes ws ->
  exists G1 G2 : Q,
    calcGrossArea (wallsArg (map dimsQ ws)) height = Fin G1 /\
    grossArea (calculateAll (paramsQ ws os tl tw g wp sb)) = Fin G2 /\
    (G1 == sumAreasQ ws)%Q /\ (G2 == sumAreasQ ws)%Q /\
    (forall a b : Q,
       exists G : Q,
         calcGrossArea (lengthArg (Fin a)) (Fin b) = Fin G /\
         (G == a * b)%Q).
Proof.
  intro Hnn.
  destruct (calcGrossArea_fold_Q ws 0) as [g1 [E1 H1]].
  destruct (AppExtra.gross_fold_Q wallQ ws (fun s => conj eq_refl eq_refl)
              Hnn 0) as [g2 [E2 H2]].
  exists g1, g2. split; [exact E1|]. split.
  - destruct (calculateAll_eq (paramsQ ws os tl tw g wp sb)) as [_ E].
    cbv zeta in E. rewrite E. cbn [grossArea]. unfold wallsLoop.
    rewrite AppExtra.wallsLoop_gross. cbn [snd paramsQ walls]. exact E2.
  - split; [rewrite H1; ring|]. split; [rewrite H2; ring|].
    intros a b. unfold calcGrossArea.
    destruct (num0_Fin_eqv a) as [a' [Ea Ha]].
    destruct (num0_Fin_eqv b) as [b' [Eb Hb]].
    rewrite Ea, Eb. cbn [mul]. exists (a' * b')%Q.
    split; [reflexivity|]. rewrite Ha, Hb. reflexivity.
Qed.

Lemma gross_helper_agrees_with_estimate_witness :
  exists G1 G2 : Q,
    calcGrossArea (wallsArg (map dimsQ [(3, 2.5); (3, 2.5)])) (Fin 0)
      = Fin G1 /\
    grossArea (calculateAll roomWithDoor) = Fin G2 /\
    (G1 == sumAreasQ [(3, 2.5); (3, 2.5)])%Q /\
    (G2 == sumAreasQ [(3, 2.5); (3, 2.5)])%Q /\
    (forall a b : Q,
       exists G : Q,
         calcGrossArea (lengthArg (Fin a)) (Fin b) = Fin G /\
         (G == a * b)%Q).
Proof.
  apply (gross_helper_agrees_with_estimate
           [(3, 2.5); (3, 2.5)] [(0.9, 2.1)] 60 30 3 (Some 10%Q) 1.44 (Fin 0)).
  intros s [<- | [<- | []]]; split; discriminate.
Defined.

(** X28: the percent of a layout pattern read from the table by
    [getLayoutPattern], which the summary shows, is the percent the switch
    of [applyLayoutPattern] applies; a key outside the table applies 0; the
    percent applied is one of 0, 5, 10 and 15. *)
Theorem pattern_percent_shown_is_applied (key : String.string) :
  (forall v : num, getLayoutPatternWaste key = Some v -> v = wasteVal key) /\
  (keyOf key = None -> wasteVal key = Fin 0) /\
  In (wasteVal key) [Fin 0; Fin 5; Fin 10; Fin 15].
Proof.
  unfold getLayoutPatternWaste, keyOf, wasteVal.
  repeat match goal with
         | |- context [String.eqb key ?s] => destruct (String.eqb key s)
         end;
    cbn [tableWaste In];
    (split;
     [ intros v E; try (destruct (inherited key); [discriminate E|]);
       injection E as <-; reflexivity
     | split; [first [discriminate | reflexivity] | tauto] ]).
Qed.

Lemma pattern_percent_shown_is_applied_witness :
  Fin 10 = wasteVal PatternProps.brickKey.
Proof.
  exact (proj1 (pattern_percent_shown_is_applied PatternProps.brickKey) (Fin 10) eq_refl).
Defined.

End HelperFacts.
Module WallpaperPreviewFacts.
Import WallpaperLogic WallpaperProps WallpaperProps2 WallpaperFacts WallpaperApp.
Local Open Scope js_scope.

Lemma orElse_Fin_default (q d : Q) :
  (0 <= q)%Q -> (0 < d)%Q ->
  exists q' : Q, orElse (num0 (Fin q)) (Fin d) = Fin q' /\ (0 < q')%Q /\
                 ((0 < q)%Q -> q' = q).
Proof.
  intros Hq Hd. unfold num0, parseFloat, orElse, truthy.
  destruct (Qeq_bool q 0) eqn:E; cbn [negb].
  - change (Qeq_bool 0 0) with true. cbn [negb]. exists d.
    split; [reflexivity|]. split; [exact Hd|].
    intro Hpos. apply Qeq_bool_iff in E. lra.
  - rewrite E. cbn [negb]. exists q. split; [reflexivity|].
    apply Qeq_bool_false in E. split; [|reflexivity].
    destruct (Qle_lt_or_eq _ _ Hq) as [H|H]; [exact H|].
    exfalso. apply E. symmetry. exact H.
Qed.

(** X29: on a canvas at least 152 pixels wide, for a positive wall width
    and a height and a roll width that are not negative, the wallpaper
    preview draws the wall inside margins of 42 pixels, filling the space
    between them in width or in height, with at least one strip, and the
    strips tile the drawn width exactly. *)
Theorem wallpaper_preview_fits_canvas (dom : WpDom) (cw a hh rw : Q) :
  wpCanvasWidth dom = Fin cw -> wpWallWidth dom = Fin a ->
  wpWallHeight dom = Fin hh -> wpRollWidth dom = Fin rw ->
  (152 <= cw)%Q -> (0 < a)%Q -> (0 <= hh)%Q -> (0 <= rw)%Q ->
  exists (pv : Preview) (H s dw dh x0 y0 e : Q) (n : Z),
    updateWallpaperPreview dom = Some pv /\
    pvW pv = Fin cw /\ pvH pv = Fin H /\ pvScale pv = Fin s /\
    pvDrawW pv = Fin dw /\ pvDrawH pv = Fin dh /\
    pvOx pv = Fin x0 /\ pvOy pv = Fin y0 /\
    pvTotalStrips pv = Fin (inject_Z n) /\ (1 <= n)%Z /\
    (0 <= s)%Q /\
    (42 <= x0)%Q /\ (x0 + dw <= cw - 42)%Q /\
    (42 <= y0)%Q /\ (y0 + dh <= H - 42)%Q /\
    ((dw == cw - 84)%Q \/ (dh == H - 84)%Q) /\
    stripX pv (Fin (inject_Z n)) = Fin e /\ (e == x0 + dw)%Q.
Proof.
  intros Ecw Ea Eh Erw Hcw Ha Hhh Hrw.
  unfold updateWallpaperPreview, App.getNum.
  rewrite Ecw, Ea, Eh, Erw.
  assert (Hcw0 : ~ (cw == 0)%Q) by (intro E; lra).
  rewrite (orElse_Fin_nonzero cw _ Hcw0).
  rewrite (num0_Fin_pos _ Ha), (orElse_Fin_nonzero a _ (Qpos_neq0 _ Ha)).
  destruct (orElse_Fin_default hh 2.7 Hhh eq_refl) as [wh [-> [Hwh _]]].
  destruct (orElse_Fin_default rw 0.53 Hrw eq_refl) as [rw' [-> [Hrw' _]]].
  rewrite (orElse_Fin_nonzero rw' _ (Qpos_neq0 _ Hrw')).
  assert (EW : exists ww : Q,
             (if wpPerimeterMode dom
              then (Fin a + orElse (Fin 0) (Fin 0)) * Fin 2 else Fin a)
             = Fin ww /\ (0 < ww)%Q).
  { destruct (wpPerimeterMode dom).
    - change (orElse (Fin 0) (Fin 0)) with (Fin 0). cbn [add mul].
      eexists. split; [reflexivity | lra].
    - exists a. split; [reflexivity | exact Ha]. }
  destruct EW as [ww [-> Hww]].
  assert (E0 : (Fin ww <=? Fin 0) = false) by (apply le_Fin_false; exact Hww).
  rewrite E0. cbn [mul round sub neg add].
  rewrite (div_Fin _ ww (Qpos_neq0 _ Hww)), (div_Fin _ wh (Qpos_neq0 _ Hwh)).
  rewrite (div_Fin _ rw' (Qpos_neq0 _ Hrw')). cbn [ceil].
  set (H := inject_Z (Qfloor (cw * 0.55 + (1 # 2)))).
  assert (HH : (84 <= H)%Q).
  { unfold H. change 84%Q with (inject_Z (Qfloor 84)).
    rewrite <- Zle_Qle. apply Qfloor_resp_le. lra. }
  set (n := Qceiling (ww / rw')).
  assert (Hn : (1 <= n)%Z).
  { pose proof (Qle_ceiling (ww / rw')) as Hc. fold n in Hc.
    pose proof (Qdiv_pos _ _ Hww Hrw') as Hp.
    assert (Hn0 : (0 < inject_Z n)%Q) by lra.
    change 0%Q with (inject_Z 0) in Hn0. rewrite <- Zlt_Qlt in Hn0. lia. }
  assert (Hnq : (1 <= inject_Z n)%Q).
  { change 1%Q with (inject_Z 1). rewrite <- Zle_Qle. exact Hn. }
  match goal with
  | |- context [min (Fin ?A) (Fin ?B)] =>
      destruct (AppFacts.min_Fin A B) as [s [Es Hs]]; rewrite !Es;
      set (qa := A) in *; set (qb := B) in *
  end.
  cbn [mul sub neg add]. rewrite !div_Fin by discriminate.
  rewrite (div_Fin _ (inject_Z n)) by (apply Qpos_neq0; lra).
  assert (Hqa : (qa * ww == cw - 84)%Q).
  { unfold qa. field. apply Qpos_neq0. exact Hww. }
  assert (Hqb : (qb * wh == H - 84)%Q).
  { unfold qb. field. apply Qpos_neq0. exact Hwh. }
  assert (Hsa : (s <= qa)%Q) by (rewrite Hs; apply Q.le_min_l).
  assert (Hsb : (s <= qb)%Q) by (rewrite Hs; apply Q.le_min_r).
  assert (Hqa0 : (0 <= qa)%Q).
  { unfold qa. apply Qle_shift_div_l; [exact Hww | lra]. }
  assert (Hqb0 : (0 <= qb)%Q).
  { unfold qb. apply Qle_shift_div_l; [exact Hwh | lra]. }
  assert (Hs0 : (0 <= s)%Q) by (rewrite Hs; apply Q.min_glb; assumption).
  assert (Hor : (s == qa)%Q \/ (s == qb)%Q).
  { destruct (Q.min_dec qa qb) as [E|E]; [left|right]; rewrite Hs; exact E. }
  clearbody qa qb.
  assert (HWs : (ww * s <= cw - 84)%Q) by nra.
  assert (HHs : (wh * s <= H - 84)%Q) by nra.
  eexists _, H, s, (ww * s)%Q, (wh * s)%Q,
    ((cw + - (ww * s)) / 2)%Q, ((H + - (wh * s)) / 2)%Q,
    ((cw + - (ww * s)) / 2 + inject_Z n * (ww * s / inject_Z n))%Q, n.
  split; [reflexivity|].
  cbn [pvW pvH pvScale pvDrawW pvDrawH pvOx pvOy pvTotalStrips].
  do 8 (split; [reflexivity|]).
  split; [exact Hn|]. split; [exact Hs0|].
  match goal with
  | |- (42 <= ?x0)%Q /\ _ /\ (42 <= ?y0)%Q /\ _ =>
      assert (Ex : (2 * x0 == cw - ww * s)%Q) by field;
      assert (Ey : (2 * y0 == H - wh * s)%Q) by field;
      set (qx := x0) in *; set (qy := y0) in *; clearbody qx qy
  end.
  split; [lra|]. split; [lra|]. split; [lra|]. split; [lra|].
  split.
  { destruct Hor as [E|E]; [left | right]; rewrite E.
    - rewrite <- Hqa. ring.
    - rewrite <- Hqb. ring. }
  unfold stripX. cbn [pvOx pvStripPx mul add].
  split; [reflexivity|]. field. apply Qpos_neq0. lra.
Qed.

Lemma wallpaper_preview_fits_canvas_witness :
  exists (pv : Preview) (H s dw dh x0 y0 e : Q) (n : Z),
    updateWallpaperPreview samplePage = Some pv /\
    pvW pv = Fin 360 /\ pvH pv = Fin H /\ pvScale pv = Fin s /\
    pvDrawW pv = Fin dw /\ pvDrawH pv = Fin dh /\
    pvOx pv = Fin x0 /\ pvOy pv = Fin y0 /\
    pvTotalStrips pv = Fin (inject_Z n) /\ (1 <= n)%Z /\
    (0 <= s)%Q /\
    (42 <= x0)%Q /\ (x0 + dw <= 360 - 42)%Q /\
    (42 <= y0)%Q /\ (y0 + dh <= H - 42)%Q /\
    ((dw == 360 - 84)%Q \/ (dh == H - 84)%Q) /\
    stripX pv (Fin (inject_Z n)) = Fin e /\ (e == x0 + dw)%Q.
Proof.
  apply (wallpaper_preview_fits_canvas samplePage 360 4 2.7 0.53);
    try reflexivity; discriminate.
Defined.
End WallpaperPreviewFacts.
